(** * eclone: the service-account pool of [backend/drive/saPool.go]

    A shallow embedding of [ServiceAccountPool]: the sequential rotation
    index ([sas], [saPool], [activeIdx]), the random pick guarded by the
    25 hour blacklist ([Files], [serviceAccountBlacklist]) and the cache of
    preloaded services ([svcs], [Max]).

    Go maps are finite maps ([gmap]); indexing a Go map at a missing key
    yields the zero value of the element type, which is written out below
    ([sas_at], [saPool_at]).  The order in which [range] walks a Go map, the
    results of [rand.Intn] and [rand.Perm], and the readings of the clock
    are inputs of the functions that use them. *)

From Stdlib Require Import Ascii.
From stdpp Require Import gmap strings list fin_maps.

Open Scope Z_scope.

(** ** Data model *)

(** [type SaEntry struct { saPath string; isStale bool }] *)
Record SaEntry := mkSaEntry { saPath : string; isStale : bool }.

#[global] Instance SaEntry_eq_dec : EqDecision SaEntry.
Proof. solve_decision. Defined.

(** The zero value of [SaEntry], read from [sas] at a missing index. *)
Definition zeroEntry : SaEntry := mkSaEntry "" false.

(** [*drive.Service] and [*http.Client]: a pointer is nil or an address. *)
Definition ServicePtr := option nat.
Definition ClientPtr := option nat.

(** [type ServiceAccountInfo struct { Service; Client }] *)
Record ServiceAccountInfo := mkInfo { Service : ServicePtr; Client : ClientPtr }.

#[global] Instance ServiceAccountInfo_eq_dec : EqDecision ServiceAccountInfo.
Proof. solve_decision. Defined.

(** [type ServiceAccountPool struct].  The context and the mutex carry no
    data of the pool and are left out. *)
Record ServiceAccountPool := mkPool {
  sas : gmap Z SaEntry;
  activeIdx : Z;
  saPool : gmap string Z;
  Files : gset string;
  Max : Z;
  svcs : list ServiceAccountInfo
}.

(** [NewServiceAccountPool]: empty maps; [activeIdx] and [svcs] keep their
    zero values. *)
Definition NewServiceAccountPool (max : Z) : ServiceAccountPool :=
  mkPool ∅ 0 ∅ ∅ max [].

Definition set_sas (p : ServiceAccountPool) (m : gmap Z SaEntry) :=
  mkPool m (activeIdx p) (saPool p) (Files p) (Max p) (svcs p).
Definition set_activeIdx (p : ServiceAccountPool) (i : Z) :=
  mkPool (sas p) i (saPool p) (Files p) (Max p) (svcs p).
Definition set_saPool (p : ServiceAccountPool) (m : gmap string Z) :=
  mkPool (sas p) (activeIdx p) m (Files p) (Max p) (svcs p).
Definition set_Files (p : ServiceAccountPool) (f : gset string) :=
  mkPool (sas p) (activeIdx p) (saPool p) f (Max p) (svcs p).
Definition set_svcs (p : ServiceAccountPool) (l : list ServiceAccountInfo) :=
  mkPool (sas p) (activeIdx p) (saPool p) (Files p) (Max p) l.

(** [p.sas[i]] and [p.saPool[s]] as Go evaluates them. *)
Definition sas_at (p : ServiceAccountPool) (i : Z) : SaEntry :=
  default zeroEntry (sas p !! i).
Definition saPool_at (p : ServiceAccountPool) (s : string) : Z :=
  default 0 (saPool p !! s).

(** [len(p.sas)] *)
Definition len_sas (p : ServiceAccountPool) : Z := Z.of_nat (size (sas p)).

(** ** Sequential rotation (gclone) *)

Module Rotation.

(** The body of [for i, v := range data] in [updateSas]. *)
Fixpoint fill (i : Z) (data : list string)
    (acc : gmap Z SaEntry * gmap string Z) : gmap Z SaEntry * gmap string Z :=
  match data with
  | [] => acc
  | v :: rest => fill (i + 1) rest (<[i := mkSaEntry v false]> acc.1, <[v := i]> acc.2)
  end.

Definition findIdxByStrInPool (p : ServiceAccountPool) (str : string) : Z :=
  match saPool p !! str with
  | Some idx => idx
  | None => -1
  end.

(** [findIdxByStr] walks [p.sas] with [range]; [it] is the order of that
    walk. *)
Fixpoint findIdxByStr_loop (it : list (Z * SaEntry)) (str : string) : Z :=
  match it with
  | [] => -1
  | (k, v) :: rest =>
      if decide (saPath v = str) then k else findIdxByStr_loop rest str
  end.

Definition findIdxByStr (it : list (Z * SaEntry)) (str : string) : Z :=
  findIdxByStr_loop it str.

Definition updateSas (p : ServiceAccountPool) (data : list string)
    (activeSa : string) : ServiceAccountPool :=
  if bool_decide (length data = 0%nat) || bool_decide (activeSa = "") then p
  else
    let conv := fill 0 data (∅, ∅) in
    let p1 := set_saPool (set_sas p conv.1) conv.2 in
    let result := findIdxByStrInPool p1 activeSa in
    if bool_decide (result ≠ -1) then set_activeIdx p1 result
    else
      let existLen := len_sas p1 in
      let p2 := set_sas p1 (<[existLen := mkSaEntry activeSa false]> (sas p1)) in
      let p3 := set_saPool p2 (<[activeSa := existLen]> (saPool p2)) in
      set_activeIdx p3 existLen.

(** [for i := lo; i < hi; i++ { if !p.sas[i].isStale { return p.sas[i].saPath } }]:
    [Some] is the early return, [None] falls out of the loop. *)
Fixpoint scan (p : ServiceAccountPool) (fuel : nat) (i : Z) : option string :=
  match fuel with
  | O => None
  | S fuel' =>
      if negb (isStale (sas_at p i)) then Some (saPath (sas_at p i))
      else scan p fuel' (i + 1)
  end.

Definition scan_range (p : ServiceAccountPool) (lo hi : Z) : option string :=
  scan p (Z.to_nat (hi - lo)) lo.

(** [rollup] returns its string and leaves the pool as it found it; the
    pool after the call is the second component. *)
Definition rollup (p : ServiceAccountPool) : string * ServiceAccountPool :=
  let existLen := len_sas p in
  match scan_range p (activeIdx p + 1) existLen with
  | Some s => (s, p)
  | None =>
      match scan_range p 0 (activeIdx p) with
      | Some s => (s, p)
      | None => ("", p)
      end
  end.

Definition activeSa (p : ServiceAccountPool) (path : string) : ServiceAccountPool :=
  match saPool p !! path with
  | Some entry => set_activeIdx p entry
  | None => p
  end.

Definition isPoolEmpty (p : ServiceAccountPool) : bool :=
  bool_decide (size (saPool p) = 0%nat).

(** The loop of [randomPick]: [it] is the order in which [range] walks
    [p.saPool], [r] the countdown started at [rand.Intn(existLen)]. *)
Fixpoint randomPick_loop (it : list (string * Z)) (r : Z) : Z :=
  match it with
  | [] => -1
  | (_, v) :: rest => if bool_decide (r = 0) then v else randomPick_loop rest (r - 1)
  end.

Definition randomPick (p : ServiceAccountPool) (it : list (string * Z)) (r : Z) : Z :=
  let existLen := size (saPool p) in
  if bool_decide (existLen = 0%nat) then -1 else randomPick_loop it r.

(** [staleSa]; [it] and [r] feed the [randomPick] it calls. *)
Definition staleSa (p : ServiceAccountPool) (target : string)
    (it : list (string * Z)) (r : Z) : (bool * string) * ServiceAccountPool :=
  let target := if bool_decide (target = "") then saPath (sas_at p (activeIdx p)) else target in
  let oldIdx := saPool_at p target in
  let p1 :=
    match sas p !! oldIdx with
    | Some entry => set_sas p (<[oldIdx := mkSaEntry (saPath entry) true]> (sas p))
    | None => p
    end in
  let p2 := set_saPool p1 (delete target (saPool p1)) in
  if isPoolEmpty p2 then ((true, ""), set_activeIdx p2 (-1))
  else
    let ret := randomPick p2 it r in
    if bool_decide (ret ≠ -1) then
      let p3 := set_activeIdx p2 ret in
      ((false, saPath (sas_at p3 ret)), p3)
    else ((true, ""), p2).

(** [revertStaleSa]; [it] is the walk of [p.sas] made by [findIdxByStr]. *)
Definition revertStaleSa (p : ServiceAccountPool) (target : string)
    (it : list (Z * SaEntry)) : ServiceAccountPool :=
  if bool_decide (target = "") then p
  else
    let oldIdx := findIdxByStr it target in
    if bool_decide (oldIdx ≠ -1) then
      match sas p !! oldIdx with
      | Some entry =>
          let p1 := set_saPool p (<[target := oldIdx]> (saPool p)) in
          set_sas p1 (<[oldIdx := mkSaEntry (saPath entry) false]> (sas p1))
      | None => p
      end
    else p.

End Rotation.

(** ** Random pick guarded by the blacklist (fclone) *)

(** Results that a Go runtime panic cuts short. *)
Inductive outcome (A : Type) : Type :=
  | Done (a : A)
  | Panicked.
Arguments Done {A} a.
Arguments Panicked {A}.

Module Clock.

(** A [time.Time] is a count of nanoseconds; a [time.Duration] is an
    [int64] of nanoseconds, and [Time.Sub] saturates at its bounds. *)
Definition minDuration : Z := - 2 ^ 63.
Definition maxDuration : Z := 2 ^ 63 - 1.
Definition Hour : Z := 3600 * 1000000000.

Definition Sub (t u : Z) : Z :=
  let d := t - u in
  if d <? minDuration then minDuration
  else if maxDuration <? d then maxDuration
  else d.

(** [time.Since(t)] is [time.Now().Sub(t)]; [now] is the reading of the
    clock it makes. *)
Definition Since (now t : Z) : Z := Sub now t.

End Clock.

(** [const blacklistDuration = 25 * time.Hour] *)
Definition blacklistDuration : Z := 25 * Clock.Hour.

(** [var serviceAccountBlacklist sync.Map]: path to time of blacklisting. *)
Abbreviation Blacklist := (gmap string Z).

Inductive GetFileError :=
  | ErrNoFile            (* "no available service account file" *)
  | ErrAllBlacklisted.   (* "no available service account file (all blacklisted)" *)

#[global] Instance GetFileError_eq_dec : EqDecision GetFileError.
Proof. solve_decision. Defined.

Module FilePool.

(** [for _, idx := range perm]: [keys] are the collected keys, [clock j]
    the reading of the clock in round [j] of the loop.  Indexing [keys]
    out of range is a runtime panic. *)
Fixpoint pick (keys : list string) (clock : nat → Z) (j : nat)
    (perm : list nat) (bl : Blacklist)
    : outcome ((string * option GetFileError) * Blacklist) :=
  match perm with
  | [] => Done (("", Some ErrAllBlacklisted), bl)
  | idx :: rest =>
      match keys !! idx with
      | None => Panicked
      | Some file =>
          match bl !! file with
          | None => Done ((file, None), bl)
          | Some blackTime =>
              if blacklistDuration <? Clock.Since (clock j) blackTime
              then Done ((file, None), delete file bl)
              else pick keys clock (S j) rest bl
          end
      end
  end.

(** [_getFile].  [now] is the [time.Now()] stored with [excludeFile],
    [keys] the order in which [range p.Files] yields the keys, [perm] the
    value of [rand.Perm(len(keys))]. *)
Definition _getFile (p : ServiceAccountPool) (bl : Blacklist)
    (excludeFile : string) (now : Z) (keys : list string) (perm : list nat)
    (clock : nat → Z)
    : outcome ((string * option GetFileError) * (ServiceAccountPool * Blacklist)) :=
  let st :=
    if bool_decide (excludeFile ≠ "")
    then (set_Files p (Files p ∖ {[excludeFile]}), <[excludeFile := now]> bl)
    else (p, bl) in
  if bool_decide (size (Files st.1) = 0%nat)
  then Done (("", Some ErrNoFile), st)
  else
    match pick keys clock 0 perm st.2 with
    | Done (res, bl') => Done (res, (st.1, bl'))
    | Panicked => Panicked
    end.

(** [GetFile] takes the lock and calls [_getFile]. *)
Definition GetFile := _getFile.

(** The inputs [_getFile] can meet: [range] yields every key of the set
    once, [rand.Perm(n)] is a permutation of [0..n-1]. *)
Definition valid_draw (files : gset string) (keys : list string) (perm : list nat) : Prop :=
  keys ≡ₚ elements files ∧ perm ≡ₚ seq 0 (length keys).

(** The identifiers in the order the loop examines them. *)
Definition visits (keys : list string) (perm : list nat) : list string :=
  omap (λ idx, keys !! idx) perm.

(** The loop of [_getFile] read over the identifiers it examines. *)
Fixpoint pick_in_order (clock : nat → Z) (j : nat) (vs : list string)
    (bl : Blacklist) : (string * option GetFileError) * Blacklist :=
  match vs with
  | [] => (("", Some ErrAllBlacklisted), bl)
  | file :: rest =>
      match bl !! file with
      | None => ((file, None), bl)
      | Some blackTime =>
          if blacklistDuration <? Clock.Since (clock j) blackTime
          then ((file, None), delete file bl)
          else pick_in_order clock (S j) rest bl
      end
  end.

(** [file] has a blacklist entry that is at most 25 hours old at the
    reading of the clock made in round [j]. *)
Definition unexpired (bl : Blacklist) (clock : nat → Z) (j : nat) (file : string) : Prop :=
  ∃ t, bl !! file = Some t ∧ clock j - t ≤ blacklistDuration.

(** The set [_getFile] selects from. *)
Definition remaining (p : ServiceAccountPool) (excludeFile : string) : gset string :=
  if bool_decide (excludeFile ≠ "") then Files p ∖ {[excludeFile]} else Files p.

End FilePool.

(** ** Preloaded services (fclone) *)

Inductive CacheError :=
  | ErrNoPreloaded.   (* "no available preloaded services" *)

Module Cache.

(** [AddService]; [p.svcs[:p.Max]] panics when [p.Max] is negative. *)
Definition AddService (p : ServiceAccountPool) (client : ClientPtr)
    (svc : ServicePtr) : outcome ServiceAccountPool :=
  let l := mkInfo svc client :: svcs p in
  if Max p <? Z.of_nat (length l) then
    if Max p <? 0 then Panicked
    else Done (set_svcs p (take (Z.to_nat (Max p)) l))
  else Done (set_svcs p l).

Definition GetService (p : ServiceAccountPool)
    : (ServicePtr * option CacheError) * ServiceAccountPool :=
  match svcs p with
  | [] => ((None, Some ErrNoPreloaded), p)
  | front :: rest => ((Service front, None), set_svcs p (rest ++ [front]))
  end.

Definition GetClient (p : ServiceAccountPool)
    : (ClientPtr * option CacheError) * ServiceAccountPool :=
  match svcs p with
  | [] => ((None, Some ErrNoPreloaded), p)
  | front :: rest => ((Client front, None), set_svcs p (rest ++ [front]))
  end.

(** The loop of [PreloadServices]: [order] is the walk of [p.Files],
    [create] stands for [createDriveService] ([None] is its error). *)
Fixpoint preload (create : string → option ServiceAccountInfo) (count : Z)
    (order : list string) (acc : list ServiceAccountInfo) : list ServiceAccountInfo :=
  match order with
  | [] => acc
  | file :: rest =>
      if count <=? Z.of_nat (length acc) then acc
      else
        match create file with
        | None => preload create count rest acc
        | Some svc => preload create count rest (acc ++ [svc])
        end
  end.

Definition PreloadServices (p : ServiceAccountPool)
    (create : string → option ServiceAccountInfo) (count : Z)
    (order : list string) : list ServiceAccountInfo * ServiceAccountPool :=
  let built := preload create count order [] in
  (built, set_svcs p (built ++ svcs p)).

(** The operations on the cache, and a run of them. *)
Inductive CacheOp :=
  | Offer (client : ClientPtr) (svc : ServicePtr)
  | TakeService
  | TakeClient
  | Preload (create : string → option ServiceAccountInfo) (count : Z)
            (order : list string).

Definition step (p : ServiceAccountPool) (op : CacheOp) : outcome ServiceAccountPool :=
  match op with
  | Offer c s => AddService p c s
  | TakeService => Done (GetService p).2
  | TakeClient => Done (GetClient p).2
  | Preload create count order => Done (PreloadServices p create count order).2
  end.

Fixpoint run (p : ServiceAccountPool) (ops : list CacheOp) : outcome ServiceAccountPool :=
  match ops with
  | [] => Done p
  | op :: rest =>
      match step p op with
      | Done p' => run p' rest
      | Panicked => Panicked
      end
  end.

End Cache.

(** ** The rotation index as a state machine *)

Module Index.

(** The reverse mapping holds exactly the pairs (identifier, index) of the
    entries that are not stale. *)
Definition reverse_exact (p : ServiceAccountPool) : Prop :=
  ∀ s i, saPool p !! s = Some i ↔ sas p !! i = Some (mkSaEntry s false).

(** The entries sit at the indices [0 .. len(sas)-1]. *)
Definition dense (p : ServiceAccountPool) : Prop :=
  ∀ i, is_Some (sas p !! i) ↔ 0 ≤ i < len_sas p.

(** No identifier occurs at two indices. *)
Definition distinct_paths (p : ServiceAccountPool) : Prop :=
  ∀ i j e e', sas p !! i = Some e → sas p !! j = Some e' →
    saPath e = saPath e' → i = j.

Record wf (p : ServiceAccountPool) : Prop := mk_wf {
  wf_dense : dense p;
  wf_distinct : distinct_paths p;
  wf_reverse : reverse_exact p
}.

(** Every entry is stale. *)
Definition all_stale (p : ServiceAccountPool) : Prop :=
  ∀ i e, sas p !! i = Some e → isStale e = true.

(** The indices in the order [rollup] examines them. *)
Definition scan_order (p : ServiceAccountPool) : list Z :=
  seqZ (activeIdx p + 1) (len_sas p - (activeIdx p + 1)) ++ seqZ 0 (activeIdx p).

(** Index [j] holds an entry, and that entry is stale. *)
Definition stale_at (p : ServiceAccountPool) (j : Z) : Prop :=
  ∃ e, sas p !! j = Some e ∧ isStale e = true.

(** The identifier [staleSa] works on. *)
Definition resolve (p : ServiceAccountPool) (target : string) : string :=
  if bool_decide (target = "") then saPath (sas_at p (activeIdx p)) else target.

(** The calls on the index, each with the inputs its walks and draws use. *)
Inductive Op :=
  | OpUpdateSas (data : list string) (activeSa : string)
  | OpActiveSa (path : string)
  | OpStaleSa (target : string) (it : list (string * Z)) (r : Z)
  | OpRevertStaleSa (target : string) (it : list (Z * SaEntry))
  | OpRollup.

Definition run_op (p : ServiceAccountPool) (op : Op) : ServiceAccountPool :=
  match op with
  | OpUpdateSas data a => Rotation.updateSas p data a
  | OpActiveSa path => Rotation.activeSa p path
  | OpStaleSa target it r => (Rotation.staleSa p target it r).2
  | OpRevertStaleSa target it => Rotation.revertStaleSa p target it
  | OpRollup => (Rotation.rollup p).2
  end.

(** What the runtime guarantees of those inputs: a [range] walk yields
    every pair of the map once, [rand.Intn(n)] lies in [0, n). *)
Definition op_valid (p : ServiceAccountPool) (op : Op) : Prop :=
  match op with
  | OpStaleSa target it r =>
      it ≡ₚ map_to_list (delete (resolve p target) (saPool p)) ∧
      (it ≠ [] → 0 ≤ r < Z.of_nat (length it))
  | OpRevertStaleSa target it => it ≡ₚ map_to_list (sas p)
  | _ => True
  end.

(** The calls that keep within the identifiers the index knows: a rebuild
    from a list without repetition, [staleSa] on an identifier of the
    reverse mapping. *)
Definition op_known (p : ServiceAccountPool) (op : Op) : Prop :=
  match op with
  | OpUpdateSas data a => NoDup data
  | OpStaleSa target it r => is_Some (saPool p !! resolve p target)
  | _ => True
  end.

Inductive reachable (max : Z) : ServiceAccountPool → Prop :=
  | reach_new : reachable max (NewServiceAccountPool max)
  | reach_step p op :
      reachable max p → op_valid p op → reachable max (run_op p op).

(** The states reached by calls that keep within the known identifiers. *)
Inductive reachable_known (max : Z) : ServiceAccountPool → Prop :=
  | known_new : reachable_known max (NewServiceAccountPool max)
  | known_step p op :
      reachable_known max p → op_valid p op → op_known p op →
      reachable_known max (run_op p op).

(** What every reachable state has, whatever the arguments were: dense
    entries, an [activeIdx] that is -1 or at most [len(sas)], and a reverse
    mapping that points at entries. *)
Record shape (p : ServiceAccountPool) : Prop := mk_shape {
  shape_dense : dense p;
  shape_active : -1 ≤ activeIdx p ≤ len_sas p;
  shape_pool : ∀ s i, saPool p !! s = Some i → is_Some (sas p !! i)
}.

End Index.

(** ** Runs of calls *)

Module Scenario.
Import Index.

(** Two workers report the same exhausted account: [staleSa("b")] twice
    on the index built from [a, b, c] with [a] active.  The walk of the
    reverse mapping is [c, a] and the draw is 1 both times. *)
Definition rebuild_abc : Op := OpUpdateSas ["a"; "b"; "c"] "a".
Definition stale_b : Op := OpStaleSa "b" [("c", 2); ("a", 0)] 1.

Definition built : ServiceAccountPool := run_op (NewServiceAccountPool 100) rebuild_abc.
Definition stale_once : ServiceAccountPool := run_op built stale_b.
Definition stale_twice : ServiceAccountPool := run_op stale_once stale_b.

(** [staleSa] on an identifier that was never loaded, then on two keys of
    the reverse mapping.  The walks are those of the reverse mapping less
    the target; the draws pick "a" each time. *)
Definition stale_zzz : Op := OpStaleSa "zzz" [("c", 2); ("a", 0); ("b", 1)] 1.
Definition stale_c : Op := OpStaleSa "c" [("a", 0); ("b", 1)] 0.
Definition stale_last : Op := OpStaleSa "b" [("a", 0)] 0.

Definition after_zzz : ServiceAccountPool := run_op built stale_zzz.
Definition after_c : ServiceAccountPool := run_op after_zzz stale_c.
Definition after_last : ServiceAccountPool := run_op after_c stale_last.

(** A cache of capacity 2 that is filled by two [AddService] calls and
    then preloaded from the two files of the pool. *)
Definition two_files : ServiceAccountPool :=
  set_Files (NewServiceAccountPool 2) {["/sa/sa1.json"; "/sa/sa2.json"]}.

Definition create_ok (file : string) : option ServiceAccountInfo :=
  if bool_decide (file = "/sa/sa1.json") then Some (mkInfo (Some 1%nat) (Some 11%nat))
  else if bool_decide (file = "/sa/sa2.json") then Some (mkInfo (Some 2%nat) (Some 12%nat))
  else None.

Definition fill_then_preload : list Cache.CacheOp :=
  [ Cache.Offer (Some 13%nat) (Some 3%nat);
    Cache.Offer (Some 14%nat) (Some 4%nat);
    Cache.Preload create_ok 2 ["/sa/sa1.json"; "/sa/sa2.json"] ].

(** The clock of a call made at 100 hours that takes no measurable time,
    and a registry in which the first file was blacklisted at 74 hours
    (26 hours before) and the second at 99 hours. *)
Definition at_100h (j : nat) : Z := 100 * Clock.Hour.

Definition registry : Blacklist :=
  <["/sa/sa1.json" := 74 * Clock.Hour]> (<["/sa/sa2.json" := 99 * Clock.Hour]> ∅).

End Scenario.

(** ** Loading the directory of service accounts *)

Module Loader.

(** The two fields of [Options] that [Load] reads. *)
Record Options := mkOptions {
  ServiceAccountFilePath : string;
  ServiceAccountFile : string
}.

Inductive LoadError :=
  | ErrReadDir.   (* "error loading service accounts from folder: ..." *)

(** [strings.HasSuffix(s, suffix)]:
    [len(s) >= len(suffix) && s[len(s)-len(suffix):] == suffix]. *)
Definition HasSuffix (s suffix : string) : bool :=
  let ls := String.list_ascii_of_string s in
  let lx := String.list_ascii_of_string suffix in
  bool_decide (length lx ≤ length ls)%nat &&
  bool_decide (drop (length ls - length lx) ls = lx).

(** The loop of [path.Ext]:
    [for i := len(path) - 1; i >= 0 && path[i] != '/'; i--
       { if path[i] == '.' { return path[i:] } }
     return ""];
    [n] is [i + 1]. *)
Fixpoint Ext_loop (path : list ascii) (n : nat) : list ascii :=
  match n with
  | O => []
  | S i =>
      match path !! i with
      | Some c =>
          if bool_decide (c = "/"%char) then []
          else if bool_decide (c = "."%char) then drop i path
          else Ext_loop path i
      | None => []
      end
  end.

Definition Ext (path : string) : string :=
  String.string_of_list_ascii
    (Ext_loop (String.list_ascii_of_string path)
              (length (String.list_ascii_of_string path))).

(** [for _, entry := range entries]: [acc.1] is [fileList], [acc.2] is
    [fileNames]. *)
Fixpoint scan_dir (saFolder active : string) (entries : list string)
    (acc : gset string * list string) : gset string * list string :=
  match entries with
  | [] => acc
  | name :: rest =>
      let filePath := saFolder +:+ name in
      if bool_decide (Ext filePath ≠ ".json") then scan_dir saFolder active rest acc
      else
        scan_dir saFolder active rest
          (if bool_decide (filePath ≠ active) then {[filePath]} ∪ acc.1 else acc.1,
           acc.2 ++ [filePath])
  end.

(** [Load].  [pathSeparator] is [string(os.PathSeparator)] of the
    platform; [readDir] is what [os.ReadDir(saFolder)] returns, the names
    of the entries or [None] for its error. *)
Definition Load (p : ServiceAccountPool) (opt : Options) (pathSeparator : string)
    (readDir : option (list string))
    : (gset string + LoadError) * ServiceAccountPool :=
  let saFolder := ServiceAccountFilePath opt in
  if bool_decide (saFolder = "") then (inl (Files p), p)
  else
    match readDir with
    | None => (inr ErrReadDir, p)
    | Some entries =>
        let saFolder :=
          if negb (HasSuffix saFolder pathSeparator) then saFolder +:+ pathSeparator
          else saFolder in
        let scanned := scan_dir saFolder (ServiceAccountFile opt) entries (∅, []) in
        let p1 := set_Files p scanned.1 in
        (inl scanned.1, Rotation.updateSas p1 scanned.2 (ServiceAccountFile opt))
    end.

(** The folder with its separator, as [Load] completes it. *)
Definition folder_of (opt : Options) (pathSeparator : string) : string :=
  if negb (HasSuffix (ServiceAccountFilePath opt) pathSeparator)
  then ServiceAccountFilePath opt +:+ pathSeparator
  else ServiceAccountFilePath opt.

(** [f] ends in [.json]. *)
Definition ends_json (f : string) : Prop := ∃ stem, f = stem +:+ ".json".

End Loader.

(** ** Runs of takes and of selections *)

Module Runs.

(** [k] calls of [GetService] in a row: the services handed out, oldest
    first, and the pool after the last call. *)
Fixpoint services (k : nat) (p : ServiceAccountPool)
    : list (ServicePtr * option CacheError) * ServiceAccountPool :=
  match k with
  | O => ([], p)
  | S k' =>
      let r := Cache.GetService p in
      let rest := services k' r.2 in
      (r.1 :: rest.1, rest.2)
  end.

(** One call of [GetFile] with the inputs it draws. *)
Record Call := mkCall {
  excludeFile : string;
  now : Z;
  keys : list string;
  perm : list nat;
  clock : nat → Z
}.

Definition call (st : ServiceAccountPool * Blacklist) (c : Call) :=
  FilePool.GetFile st.1 st.2 (excludeFile c) (now c) (keys c) (perm c) (clock c).

(** Calls of [GetFile] in a row on one pool and one registry. *)
Fixpoint calls (st : ServiceAccountPool * Blacklist) (cs : list Call)
    : outcome (list (string * option GetFileError) * (ServiceAccountPool * Blacklist)) :=
  match cs with
  | [] => Done ([], st)
  | c :: rest =>
      match call st c with
      | Done (res, st') =>
          match calls st' rest with
          | Done (ress, st'') => Done (res :: ress, st'')
          | Panicked => Panicked
          end
      | Panicked => Panicked
      end
  end.

(** Every call draws from the files its pool holds when it is made. *)
Fixpoint calls_valid (st : ServiceAccountPool * Blacklist) (cs : list Call) : Prop :=
  match cs with
  | [] => True
  | c :: rest =>
      FilePool.valid_draw (FilePool.remaining st.1 (excludeFile c)) (keys c) (perm c) ∧
      match call st c with
      | Done (_, st') => calls_valid st' rest
      | Panicked => False
      end
  end.

End Runs.

(** The reverse mapping points at entries that carry the identifier. *)
Definition reverse_sound (p : ServiceAccountPool) : Prop :=
  ∀ s i, saPool p !! s = Some i → ∃ e, sas p !! i = Some e ∧ saPath e = s.

(** No entry is stale. *)
Definition none_stale (p : ServiceAccountPool) : Prop :=
  ∀ i e, sas p !! i = Some e → isStale e = false.

(** The active index is the sentinel, or there are no entries yet, or it
    points at an entry that is not stale. *)
Definition active_fresh (p : ServiceAccountPool) : Prop :=
  activeIdx p = -1 ∨ sas p = ∅ ∨ ∃ s, sas p !! activeIdx p = Some (mkSaEntry s false).

(** The paths [Load] keeps: the entries of the folder, in the order read,
    whose path has the extension [.json]. *)
Definition json_paths (folder : string) (entries : list string) : list string :=
  filter (λ f, Loader.Ext f = ".json") ((λ name, folder +:+ name) <$> entries).

(** * Properties *)

(** ** Building the index: [fill] *)

Section fill_facts.
Import Rotation.

Lemma fill_sas_out data : ∀ i s m j,
  ¬ (i ≤ j < i + Z.of_nat (length data)) →
  (fill i data (s, m)).1 !! j = s !! j.
Proof.
  induction data as [|v data IH]; intros i s m j Hj; simpl; [done|].
  rewrite IH by (simpl in Hj; lia).
  simpl. apply lookup_insert_ne. simpl in Hj. lia.
Qed.

Lemma fill_sas_in data : ∀ i s m j,
  i ≤ j < i + Z.of_nat (length data) →
  (fill i data (s, m)).1 !! j =
    (λ v, mkSaEntry v false) <$> data !! Z.to_nat (j - i).
Proof.
  induction data as [|v data IH]; intros i s m j Hj; simpl in *; [lia|].
  destruct (decide (j = i)) as [->|Hne].
  - rewrite fill_sas_out by lia. simpl.
    rewrite lookup_insert_eq. by rewrite Z.sub_diag.
  - rewrite IH by lia.
    replace (Z.to_nat (j - i)) with (S (Z.to_nat (j - (i + 1)))) by lia.
    done.
Qed.

Lemma fill_pool_out data : ∀ i s m v,
  v ∉ data → (fill i data (s, m)).2 !! v = m !! v.
Proof.
  induction data as [|w data IH]; intros i s m v Hv; simpl; [done|].
  apply not_elem_of_cons in Hv as [Hne Hv].
  rewrite IH by done. simpl. by apply lookup_insert_ne.
Qed.

(** The reverse mapping sends an identifier of [data] to the index of its
    last occurrence. *)
Lemma fill_pool_in data : ∀ i s m v,
  v ∈ data →
  ∃ k : nat, (fill i data (s, m)).2 !! v = Some (i + Z.of_nat k) ∧
    data !! k = Some v ∧ ∀ k' : nat, (k < k')%nat → data !! k' ≠ Some v.
Proof.
  induction data as [|w data IH]; intros i s m v Hv; simpl.
  { by apply elem_of_nil in Hv. }
  destruct (decide (v ∈ data)) as [Hin|Hnin].
  - destruct (IH (i + 1) (<[i:=mkSaEntry w false]> s) (<[w:=i]> m) v Hin)
      as (k & Hk & Hd & Hlast).
    exists (S k). split; [|split].
    + rewrite Hk. f_equal. lia.
    + done.
    + intros [|k'] Hlt; [lia|]. simpl. apply Hlast. lia.
  - apply elem_of_cons in Hv as [->|Hv]; [|done].
    exists 0%nat. split; [|split].
    + rewrite fill_pool_out by done. simpl.
      rewrite lookup_insert_eq. f_equal. lia.
    + done.
    + intros [|k'] Hlt; [lia|]. simpl. intros Hk'.
      apply Hnin. by eapply list_elem_of_lookup_2.
Qed.

Lemma fill_pool_range data : ∀ i s m v k,
  (fill i data (s, m)).2 !! v = Some k →
  (i ≤ k < i + Z.of_nat (length data) ∧ data !! Z.to_nat (k - i) = Some v)
  ∨ ((v ∉ data) ∧ m !! v = Some k).
Proof.
  intros i s m v k Hk.
  destruct (decide (v ∈ data)) as [Hin|Hnin].
  - left. destruct (fill_pool_in data i s m v Hin) as (k0 & Hk0 & Hd & _).
    rewrite Hk in Hk0. injection Hk0 as ->.
    apply lookup_lt_Some in Hd as Hlt.
    split; [lia|]. by replace (Z.to_nat (i + Z.of_nat k0 - i)) with k0 by lia.
  - right. split; [done|]. by rewrite fill_pool_out in Hk.
Qed.

Lemma fill_sas_is_Some data j :
  is_Some ((fill 0 data (∅, ∅)).1 !! j) ↔ 0 ≤ j < Z.of_nat (length data).
Proof.
  split.
  - intros Hs. destruct (decide (0 ≤ j < 0 + Z.of_nat (length data))) as [?|Hn]; [lia|].
    rewrite fill_sas_out in Hs by done. rewrite lookup_empty in Hs.
    by destruct Hs.
  - intros Hj. rewrite fill_sas_in by lia.
    rewrite Z.sub_0_r.
    destruct (lookup_lt_is_Some_2 data (Z.to_nat j)) as [v Hv]; [lia|].
    rewrite Hv. by eexists.
Qed.

(** A map whose keys are [0 .. n-1] has [n] entries. *)
Lemma size_of_dense {A} (m : gmap Z A) : ∀ n : nat,
  (∀ j, is_Some (m !! j) ↔ 0 ≤ j < Z.of_nat n) → size m = n.
Proof.
  intros n. revert m. induction n as [|n IH]; intros m Hm.
  - apply map_size_empty_iff, map_empty. intros j.
    apply eq_None_not_Some. rewrite Hm. lia.
  - destruct (proj2 (Hm (Z.of_nat n))) as [x Hx]; [lia|].
    rewrite <- (insert_delete_id m (Z.of_nat n) x Hx).
    rewrite map_size_insert_None by apply lookup_delete_eq.
    f_equal. apply IH. intros j.
    destruct (decide (j = Z.of_nat n)) as [->|Hne].
    + rewrite lookup_delete_eq. split; [by intros []|lia].
    + rewrite lookup_delete_ne by done. rewrite Hm. lia.
Qed.

Lemma fill_sas_size data : size (fill 0 data (∅, ∅)).1 = length data.
Proof. apply size_of_dense. intros j. apply fill_sas_is_Some. Qed.

End fill_facts.

(** ** [updateSas] *)

Section updateSas_facts.
Import Rotation.

Lemma updateSas_noop p data a :
  data = [] ∨ a = "" → updateSas p data a = p.
Proof.
  intros [-> | ->]; unfold updateSas.
  - done.
  - rewrite (bool_decide_true ("" = "")) by done. by rewrite orb_true_r.
Qed.

Lemma updateSas_guard (data : list string) (a : string) :
  data ≠ [] → a ≠ "" →
  bool_decide (length data = 0%nat) || bool_decide (a = "") = false.
Proof.
  intros Hd Ha. rewrite (bool_decide_false (a = "")) by done.
  rewrite bool_decide_false; [done|]. by destruct data.
Qed.

(** The pool after a rebuild whose active identifier is in the list. *)
Lemma updateSas_present p data a :
  data ≠ [] → a ≠ "" → a ∈ data →
  ∃ k : nat,
    data !! k = Some a ∧ (∀ k' : nat, (k < k')%nat → data !! k' ≠ Some a) ∧
    updateSas p data a =
      mkPool (fill 0 data (∅, ∅)).1 (Z.of_nat k) (fill 0 data (∅, ∅)).2
             (Files p) (Max p) (svcs p).
Proof.
  intros Hd Ha Hin.
  destruct (fill_pool_in data 0 ∅ ∅ a Hin) as (k & Hk & Hdk & Hlast).
  exists k. split; [done|]. split; [done|].
  unfold updateSas. rewrite updateSas_guard by done. cbv zeta.
  unfold findIdxByStrInPool. simpl. rewrite Hk.
  rewrite bool_decide_true by lia.
  unfold set_activeIdx. simpl. by rewrite Z.add_0_l.
Qed.

(** The pool after a rebuild whose active identifier is not in the list. *)
Lemma updateSas_absent p data a :
  data ≠ [] → a ≠ "" → a ∉ data →
  updateSas p data a =
    mkPool (<[Z.of_nat (length data) := mkSaEntry a false]> (fill 0 data (∅, ∅)).1)
           (Z.of_nat (length data))
           (<[a := Z.of_nat (length data)]> (fill 0 data (∅, ∅)).2)
           (Files p) (Max p) (svcs p).
Proof.
  intros Hd Ha Hnin.
  unfold updateSas. rewrite updateSas_guard by done. cbv zeta.
  unfold findIdxByStrInPool. simpl.
  rewrite fill_pool_out by done. rewrite lookup_empty.
  rewrite bool_decide_false by lia.
  unfold len_sas. simpl. by rewrite fill_sas_size.
Qed.

End updateSas_facts.

Section updateSas_claims.
Import Rotation.

Lemma fill_sas_nth data (k : nat) v :
  data !! k = Some v →
  (fill 0 data (∅, ∅)).1 !! Z.of_nat k = Some (mkSaEntry v false).
Proof.
  intros Hk. apply lookup_lt_Some in Hk as Hlt.
  rewrite fill_sas_in by lia.
  replace (Z.to_nat (Z.of_nat k - 0)) with k by lia. by rewrite Hk.
Qed.

Lemma fill_sas_entry data i e :
  (fill 0 data (∅, ∅)).1 !! i = Some e →
  ∃ k : nat, i = Z.of_nat k ∧ data !! k = Some (saPath e) ∧ isStale e = false.
Proof.
  intros He.
  assert (0 ≤ i < Z.of_nat (length data)) as Hi
    by (apply fill_sas_is_Some; by eexists).
  rewrite fill_sas_in in He by lia. rewrite Z.sub_0_r in He.
  exists (Z.to_nat i). split; [lia|].
  destruct (data !! Z.to_nat i) as [v|]; simpl in He; [|done].
  injection He as <-. done.
Qed.

(** C8: after a rebuild from a non-empty list with a non-empty active
    identifier, the active entry carries that identifier and is not stale;
    the list's identifiers sit at their input positions, none stale; if the
    active identifier occurs in the list, [activeIdx] is its (last)
    position and nothing is appended; otherwise it is appended at index
    [len(data)] and that entry is the active one. *)
Theorem updateSas_active_entry p data a :
  data ≠ [] → a ≠ "" →
  let p' := updateSas p data a in
  sas p' !! activeIdx p' = Some (mkSaEntry a false) ∧
  saPath (sas_at p' (activeIdx p')) = a ∧
  (∀ (k : nat) v, data !! k = Some v →
     sas p' !! Z.of_nat k = Some (mkSaEntry v false)) ∧
  (∀ i e, sas p' !! i = Some e → isStale e = false) ∧
  (a ∈ data →
     ∃ k : nat, activeIdx p' = Z.of_nat k ∧ data !! k = Some a ∧
       (∀ k' : nat, (k < k')%nat → data !! k' ≠ Some a) ∧
       len_sas p' = Z.of_nat (length data)) ∧
  (a ∉ data →
     activeIdx p' = Z.of_nat (length data) ∧
     len_sas p' = Z.of_nat (length data) + 1 ∧
     saPool p' !! a = Some (Z.of_nat (length data))).
Proof.
  intros Hd Ha p'.
  destruct (decide (a ∈ data)) as [Hin|Hnin].
  - destruct (updateSas_present p data a Hd Ha Hin) as (k & Hk & Hlast & Heq).
    subst p'. rewrite Heq. unfold sas_at, len_sas. simpl.
    rewrite (fill_sas_nth _ _ _ Hk). simpl.
    repeat split; try done.
    + intros k0 v Hv. by apply fill_sas_nth.
    + intros i e He. by destruct (fill_sas_entry _ _ _ He) as (? & ? & ? & ?).
    + intros _. exists k. rewrite fill_sas_size. done.
  - subst p'. rewrite (updateSas_absent p data a Hd Ha Hnin).
    unfold sas_at, len_sas. simpl. rewrite lookup_insert_eq. simpl.
    repeat split; try done.
    + intros k v Hv. apply lookup_lt_Some in Hv as Hlt.
      rewrite lookup_insert_ne by lia. by apply fill_sas_nth.
    + intros i e He.
      destruct (decide (i = Z.of_nat (length data))) as [->|Hne].
      * rewrite lookup_insert_eq in He. by injection He as <-.
      * rewrite lookup_insert_ne in He by done.
        by destruct (fill_sas_entry _ _ _ He) as (? & ? & ? & ?).
    + rewrite map_size_insert_None.
      * rewrite fill_sas_size. lia.
      * rewrite fill_sas_out by lia. apply lookup_empty.
    + apply lookup_insert_eq.
Qed.

Lemma updateSas_active_entry_witness :
  let p' := updateSas (NewServiceAccountPool 100) ["a"; "b"; "c"; "d"] "e" in
  sas p' !! activeIdx p' = Some (mkSaEntry "e" false) ∧ activeIdx p' = 4.
Proof.
  pose proof (updateSas_active_entry (NewServiceAccountPool 100)
                ["a"; "b"; "c"; "d"] "e") as H.
  destruct H as (H1 & _); [done|done|].
  split; [exact H1|]. vm_compute. reflexivity.
Defined.

(** C9: a rebuild with an empty list or an empty active identifier returns
    the pool it was given: entries, reverse mapping and [activeIdx] (and
    every other field) are as before; the function has no error result. *)
Theorem updateSas_invalid_input_noop p data a :
  data = [] ∨ a = "" →
  updateSas p data a = p ∧
  sas (updateSas p data a) = sas p ∧
  saPool (updateSas p data a) = saPool p ∧
  activeIdx (updateSas p data a) = activeIdx p.
Proof.
  intros H. by rewrite (updateSas_noop p data a H).
Qed.

Lemma updateSas_invalid_input_noop_witness :
  let p := updateSas (NewServiceAccountPool 100) ["a"; "b"] "b" in
  updateSas p [] "c" = p ∧ updateSas p ["x"; "y"] "" = p.
Proof.
  split.
  - apply (updateSas_invalid_input_noop _ [] "c"). by left.
  - apply (updateSas_invalid_input_noop _ ["x"; "y"] ""). by right.
Defined.

End updateSas_claims.

(** ** [rollup] *)

Section rollup_facts.
Import Rotation Index.

Lemma scan_result p fuel : ∀ i,
  match scan p fuel i with
  | Some s =>
      ∃ j, i ≤ j < i + Z.of_nat fuel ∧ isStale (sas_at p j) = false ∧
           s = saPath (sas_at p j) ∧
           ∀ j', i ≤ j' < j → isStale (sas_at p j') = true
  | None => ∀ j, i ≤ j < i + Z.of_nat fuel → isStale (sas_at p j) = true
  end.
Proof.
  induction fuel as [|fuel IH]; intros i; simpl.
  - intros j Hj. lia.
  - destruct (isStale (sas_at p i)) eqn:Hi; simpl.
    + specialize (IH (i + 1)). destruct (scan p fuel (i + 1)) as [s|].
      * destruct IH as (j & Hj & Hf & Hs & Hpre).
        exists j. repeat split; try done; try lia.
        intros j' Hj'. destruct (decide (j' = i)) as [->|?]; [done|].
        apply Hpre. lia.
      * intros j Hj. destruct (decide (j = i)) as [->|?]; [done|].
        apply IH. lia.
    + exists i. repeat split; try done; try lia.
Qed.

Lemma dense_sas_at p j :
  dense p → 0 ≤ j < len_sas p → sas p !! j = Some (sas_at p j).
Proof.
  intros Hd Hj. destruct (proj2 (Hd j) Hj) as [e He].
  unfold sas_at. by rewrite He.
Qed.

Lemma dense_stale_at p j :
  dense p → 0 ≤ j < len_sas p → isStale (sas_at p j) = true → stale_at p j.
Proof.
  intros Hd Hj Hs. exists (sas_at p j). split; [|done]. by apply dense_sas_at.
Qed.

(** When every entry is stale neither loop of [rollup] returns. *)
Lemma rollup_all_stale p :
  dense p → -1 ≤ activeIdx p ≤ len_sas p → all_stale p → (rollup p).1 = "".
Proof.
  intros Hd Ha Hall.
  assert (∀ j, 0 ≤ j < len_sas p → isStale (sas_at p j) = true) as Hst.
  { intros j Hj. apply (Hall j). by apply dense_sas_at. }
  unfold rollup, scan_range. cbv zeta.
  pose proof (scan_result p (Z.to_nat (len_sas p - (activeIdx p + 1))) (activeIdx p + 1)) as H1.
  destruct (scan p (Z.to_nat (len_sas p - (activeIdx p + 1))) (activeIdx p + 1)) as [s|].
  { destruct H1 as (j & Hj & Hf & _). rewrite Hst in Hf by lia. done. }
  pose proof (scan_result p (Z.to_nat (activeIdx p - 0)) 0) as H2.
  destruct (scan p (Z.to_nat (activeIdx p - 0)) 0) as [s|]; [|done].
  destruct H2 as (j & Hj & Hf & _). rewrite Hst in Hf by lia. done.
Qed.

(** C5: in a dense index whose [activeIdx] is the sentinel -1 or lies
    within the entries, [rollup] leaves the pool untouched; its result is
    the identifier of the first entry that is not stale in the order
    [activeIdx+1 .. len-1, 0 .. activeIdx-1], every entry before it in that
    order being stale, or the empty string when every entry of that order
    is stale; in particular it is the empty string when all entries are
    stale. *)
Theorem rollup_first_fresh p :
  dense p → -1 ≤ activeIdx p ≤ len_sas p →
  (rollup p).2 = p ∧
  ((∃ pre i post e,
      scan_order p = pre ++ i :: post ∧ Forall (stale_at p) pre ∧
      sas p !! i = Some e ∧ isStale e = false ∧ (rollup p).1 = saPath e)
   ∨ (Forall (stale_at p) (scan_order p) ∧ (rollup p).1 = "")) ∧
  (all_stale p → (rollup p).1 = "").
Proof.
  intros Hd Ha.
  assert ((rollup p).2 = p) as Hframe.
  { unfold rollup. by repeat case_match. }
  assert ((∃ pre i post e,
      scan_order p = pre ++ i :: post ∧ Forall (stale_at p) pre ∧
      sas p !! i = Some e ∧ isStale e = false ∧ (rollup p).1 = saPath e)
   ∨ (Forall (stale_at p) (scan_order p) ∧ (rollup p).1 = "")) as Hres.
  { unfold rollup, scan_range, scan_order. cbv zeta.
    set (a := activeIdx p) in *. set (n := len_sas p) in *.
    pose proof (scan_result p (Z.to_nat (n - (a + 1))) (a + 1)) as H1.
    destruct (scan p (Z.to_nat (n - (a + 1))) (a + 1)) as [s|].
    - left. destruct H1 as (j & Hj & Hf & -> & Hpre).
      exists (seqZ (a + 1) (j - (a + 1))), j,
        (seqZ (Z.succ j) (Z.pred (n - j)) ++ seqZ 0 a), (sas_at p j).
      split; [|split; [|split; [|split]]].
      + replace (n - (a + 1)) with ((j - (a + 1)) + (n - j)) by lia.
        rewrite seqZ_app by lia. rewrite <- app_assoc. f_equal.
        replace (a + 1 + (j - (a + 1))) with j by lia.
        rewrite (seqZ_cons j) by lia. done.
      + apply Forall_seqZ. intros m Hm.
        apply dense_stale_at; [done|unfold n in *; lia|apply Hpre; lia].
      + apply dense_sas_at; [done|unfold n in *; lia].
      + done.
      + done.
    - pose proof (scan_result p (Z.to_nat (a - 0)) 0) as H2.
      destruct (scan p (Z.to_nat (a - 0)) 0) as [s|].
      + left. destruct H2 as (j & Hj & Hf & -> & Hpre).
        exists (seqZ (a + 1) (n - (a + 1)) ++ seqZ 0 j), j,
          (seqZ (Z.succ j) (Z.pred (a - j))), (sas_at p j).
        split; [|split; [|split; [|split]]].
        * rewrite <- app_assoc. f_equal.
          replace a with (j + (a - j)) at 1 by lia.
          rewrite seqZ_app by lia. f_equal.
          rewrite Z.add_0_l. rewrite (seqZ_cons j) by lia. done.
        * apply Forall_app. split; apply Forall_seqZ; intros m Hm.
          -- apply dense_stale_at; [done|unfold n in *; lia|apply H1; lia].
          -- apply dense_stale_at; [done|unfold n in *; lia|apply Hpre; lia].
        * apply dense_sas_at; [done|unfold n in *; lia].
        * done.
        * done.
      + right. split; [|done].
        apply Forall_app. split; apply Forall_seqZ; intros m Hm.
        * apply dense_stale_at; [done|unfold n in *; lia|apply H1; lia].
        * apply dense_stale_at; [done|unfold n in *; lia|apply H2; lia]. }
  split; [done|]. split; [done|].
  intros Hall. destruct Hres as [(pre & i & post & e & _ & _ & He & Hf & _)|[_ ?]]; [|done].
  apply Hall in He. congruence.
Qed.

End rollup_facts.

(** ** The index invariant and the calls that keep it *)

Section wf_facts.
Import Rotation Index.

Lemma len_sas_mk m a r fs mx sv :
  len_sas (mkPool m a r fs mx sv) = Z.of_nat (size m).
Proof. reflexivity. Qed.

Lemma wf_ext p q :
  sas p = sas q → saPool p = saPool q → wf p → wf q.
Proof.
  intros Hs Hp [Hd Hi Hr]. split.
  - intros i. unfold len_sas. rewrite <- Hs. apply Hd.
  - intros i j e e'. rewrite <- Hs. apply Hi.
  - intros s i. rewrite <- Hs, <- Hp. apply Hr.
Qed.

Lemma wf_new max : wf (NewServiceAccountPool max).
Proof.
  split.
  - intros i. unfold len_sas. simpl. rewrite lookup_empty, map_size_empty.
    split; [by intros []|lia].
  - intros i j e e'. simpl. by rewrite lookup_empty.
  - intros s i. simpl. by rewrite !lookup_empty.
Qed.

Lemma wf_fill data a fs mx sv :
  NoDup data →
  wf (mkPool (fill 0 data (∅, ∅)).1 a (fill 0 data (∅, ∅)).2 fs mx sv).
Proof.
  intros Hnd. split.
  - intros i. unfold len_sas. simpl. rewrite fill_sas_size.
    apply fill_sas_is_Some.
  - intros i j e e'. simpl. intros Hi Hj Heq.
    destruct (fill_sas_entry _ _ _ Hi) as (k1 & -> & Hk1 & _).
    destruct (fill_sas_entry _ _ _ Hj) as (k2 & -> & Hk2 & _).
    rewrite Heq in Hk1. f_equal. by eapply NoDup_lookup.
  - intros s i. simpl. split.
    + intros Hs. destruct (fill_pool_range _ _ _ _ _ _ Hs) as [[Hi Hd]|[_ He]].
      * rewrite Z.sub_0_r in Hd.
        replace i with (Z.of_nat (Z.to_nat i)) by lia. by apply fill_sas_nth.
      * by rewrite lookup_empty in He.
    + intros Hi. destruct (fill_sas_entry _ _ _ Hi) as (k & -> & Hk & _).
      simpl in Hk.
      destruct (fill_pool_in data 0 ∅ ∅ s) as (k0 & Hk0 & Hd0 & _).
      { by eapply list_elem_of_lookup_2. }
      rewrite Hk0. f_equal.
      rewrite (NoDup_lookup data k0 k s Hnd Hd0 Hk). lia.
Qed.

Lemma wf_append p s a' fs mx sv :
  wf p → (∀ i e, sas p !! i = Some e → saPath e ≠ s) →
  wf (mkPool (<[len_sas p := mkSaEntry s false]> (sas p)) a'
             (<[s := len_sas p]> (saPool p)) fs mx sv).
Proof.
  intros [Hd Hi Hr] Hfresh.
  assert (sas p !! len_sas p = None) as Hnone.
  { apply eq_None_not_Some. rewrite (Hd _). lia. }
  split.
  - intros i. rewrite len_sas_mk. simpl.
    rewrite map_size_insert_None by done.
    destruct (decide (i = len_sas p)) as [->|Hne].
    + rewrite lookup_insert_eq. unfold len_sas. split; [intros _; lia|by eexists].
    + rewrite lookup_insert_ne by done. rewrite (Hd _). unfold len_sas in *. lia.
  - intros i j e e'. simpl. intros Hl1 Hl2 Heq.
    destruct (decide (i = len_sas p)) as [->|Hne1];
      destruct (decide (j = len_sas p)) as [->|Hne2]; try done.
    + rewrite lookup_insert_eq in Hl1. rewrite lookup_insert_ne in Hl2 by done.
      injection Hl1 as <-. simpl in Heq. symmetry in Heq.
      by apply Hfresh in Hl2.
    + rewrite lookup_insert_eq in Hl2. rewrite lookup_insert_ne in Hl1 by done.
      injection Hl2 as <-. simpl in Heq. by apply Hfresh in Hl1.
    + rewrite lookup_insert_ne in Hl1 by done.
      rewrite lookup_insert_ne in Hl2 by done. by eapply Hi.
  - intros t i. simpl.
    destruct (decide (t = s)) as [->|Hts].
    + rewrite lookup_insert_eq.
      destruct (decide (i = len_sas p)) as [->|Hne].
      * by rewrite lookup_insert_eq.
      * rewrite lookup_insert_ne by done. split; [congruence|].
        intros Hl. by apply Hfresh in Hl.
    + rewrite lookup_insert_ne by done.
      destruct (decide (i = len_sas p)) as [->|Hne].
      * rewrite lookup_insert_eq. rewrite (Hr _ _), Hnone. split; [done|congruence].
      * rewrite lookup_insert_ne by done. apply Hr.
Qed.

Lemma wf_stale p t idx a' fs mx sv :
  wf p → saPool p !! t = Some idx →
  wf (mkPool (<[idx := mkSaEntry t true]> (sas p)) a'
             (delete t (saPool p)) fs mx sv).
Proof.
  intros [Hd Hi Hr] Ht.
  assert (sas p !! idx = Some (mkSaEntry t false)) as Hidx by by apply Hr.
  split.
  - intros i. unfold len_sas. simpl.
    rewrite map_size_insert_Some by by eexists.
    destruct (decide (i = idx)) as [->|Hne].
    + rewrite lookup_insert_eq. rewrite <- (Hd idx), Hidx. split; by eexists.
    + rewrite lookup_insert_ne by done. apply Hd.
  - intros i j e e'. simpl. intros Hl1 Hl2 Heq.
    assert (∀ k x, <[idx:=mkSaEntry t true]> (sas p) !! k = Some x →
              ∃ y, sas p !! k = Some y ∧ saPath y = saPath x) as Hsame.
    { intros k x Hk. destruct (decide (k = idx)) as [->|Hne].
      - rewrite lookup_insert_eq in Hk. injection Hk as <-. by eexists.
      - rewrite lookup_insert_ne in Hk by done. by eexists. }
    destruct (Hsame _ _ Hl1) as (y1 & Hy1 & Hp1).
    destruct (Hsame _ _ Hl2) as (y2 & Hy2 & Hp2).
    eapply Hi; [done..|congruence].
  - intros s i. simpl.
    destruct (decide (s = t)) as [->|Hst].
    + rewrite lookup_delete_eq.
      destruct (decide (i = idx)) as [->|Hne].
      * rewrite lookup_insert_eq. split; congruence.
      * rewrite lookup_insert_ne by done. split; [done|].
        intros Hl. destruct Hne. by eapply Hi.
    + rewrite lookup_delete_ne by done. rewrite (Hr _ _).
      destruct (decide (i = idx)) as [->|Hne].
      * rewrite lookup_insert_eq, Hidx. split; congruence.
      * by rewrite lookup_insert_ne by done.
Qed.

Lemma wf_revert p t k v a' fs mx sv :
  wf p → sas p !! k = Some v → saPath v = t →
  wf (mkPool (<[k := mkSaEntry t false]> (sas p)) a'
             (<[t := k]> (saPool p)) fs mx sv).
Proof.
  intros [Hd Hi Hr] Hk Hv.
  split.
  - intros i. unfold len_sas. simpl.
    rewrite map_size_insert_Some by by eexists.
    destruct (decide (i = k)) as [->|Hne].
    + rewrite lookup_insert_eq. rewrite <- (Hd k), Hk. split; by eexists.
    + rewrite lookup_insert_ne by done. apply Hd.
  - intros i j e e'. simpl. intros Hl1 Hl2 Heq.
    assert (∀ n x, <[k:=mkSaEntry t false]> (sas p) !! n = Some x →
              ∃ y, sas p !! n = Some y ∧ saPath y = saPath x) as Hsame.
    { intros n x Hn. destruct (decide (n = k)) as [->|Hne].
      - rewrite lookup_insert_eq in Hn. injection Hn as <-. by eexists.
      - rewrite lookup_insert_ne in Hn by done. by eexists. }
    destruct (Hsame _ _ Hl1) as (y1 & Hy1 & Hp1).
    destruct (Hsame _ _ Hl2) as (y2 & Hy2 & Hp2).
    eapply Hi; [done..|congruence].
  - intros s i. simpl.
    destruct (decide (s = t)) as [->|Hst].
    + rewrite lookup_insert_eq.
      destruct (decide (i = k)) as [->|Hne].
      * by rewrite lookup_insert_eq.
      * rewrite lookup_insert_ne by done. split; [congruence|].
        intros Hl. destruct Hne. by eapply Hi.
    + rewrite lookup_insert_ne by done. rewrite (Hr _ _).
      destruct (decide (i = k)) as [->|Hne].
      * rewrite lookup_insert_eq, Hk. split; [|congruence].
        intros [= ->]. by destruct Hst.
      * by rewrite lookup_insert_ne by done.
Qed.

End wf_facts.

Section wf_calls.
Import Rotation Index.

Lemma updateSas_wf p data a :
  wf p → NoDup data → wf (updateSas p data a).
Proof.
  intros Hwf Hnd.
  destruct (decide (data = [] ∨ a = "")) as [Hno|Hgo].
  { by rewrite updateSas_noop. }
  assert (data ≠ []) as Hd by tauto. assert (a ≠ "") as Ha by tauto.
  destruct (decide (a ∈ data)) as [Hin|Hnin].
  - destruct (updateSas_present p data a Hd Ha Hin) as (k & _ & _ & ->).
    by apply wf_fill.
  - rewrite (updateSas_absent p data a Hd Ha Hnin).
    pose proof (wf_fill data 0 (Files p) (Max p) (svcs p) Hnd) as Hf.
    pose proof (wf_append _ a (Z.of_nat (length data)) (Files p) (Max p) (svcs p) Hf) as Hap.
    rewrite len_sas_mk, fill_sas_size in Hap. simpl in Hap.
    apply Hap. intros i e He <-.
    destruct (fill_sas_entry _ _ _ He) as (k & _ & Hk & _).
    apply Hnin. by eapply list_elem_of_lookup_2.
Qed.

Lemma activeSa_wf p path : wf p → wf (activeSa p path).
Proof.
  intros Hwf. unfold activeSa. destruct (saPool p !! path); [|done].
  by eapply wf_ext; [..|exact Hwf].
Qed.

Lemma rollup_wf p : wf p → wf (rollup p).2.
Proof. intros Hwf. unfold rollup. by repeat case_match. Qed.

(** [staleSa] on an identifier of the reverse mapping: the entry it marks
    and the key it deletes belong together. *)
Lemma staleSa_known_maps p target it r idx :
  wf p → saPool p !! resolve p target = Some idx →
  sas (staleSa p target it r).2 = <[idx := mkSaEntry (resolve p target) true]> (sas p) ∧
  saPool (staleSa p target it r).2 = delete (resolve p target) (saPool p).
Proof.
  intros Hwf Hidx.
  assert (sas p !! idx = Some (mkSaEntry (resolve p target) false)) as He
    by by apply (wf_reverse p Hwf).
  unfold staleSa. fold (resolve p target). cbv zeta.
  unfold saPool_at. rewrite Hidx. simpl. rewrite He. simpl.
  repeat case_match; done.
Qed.

Lemma staleSa_wf p target it r :
  wf p → is_Some (saPool p !! resolve p target) →
  wf (staleSa p target it r).2.
Proof.
  intros Hwf [idx Hidx].
  destruct (staleSa_known_maps p target it r idx Hwf Hidx) as [Hs Hp].
  pose proof (wf_stale p _ idx 0 ∅ 0 [] Hwf Hidx) as Hw.
  eapply wf_ext; [..|exact Hw]; simpl; done.
Qed.

Lemma findIdxByStr_loop_found it str :
  findIdxByStr_loop it str ≠ -1 →
  ∃ v, (findIdxByStr_loop it str, v) ∈ it ∧ saPath v = str.
Proof.
  induction it as [|[k v] it IH]; simpl; [done|].
  destruct (decide (saPath v = str)) as [Heq|Hne].
  - intros _. exists v. split; [apply elem_of_cons; by left|done].
  - intros Hk. destruct (IH Hk) as (w & Hw & Hp).
    exists w. split; [apply elem_of_cons; by right|done].
Qed.

Lemma revertStaleSa_wf p target it :
  wf p → it ≡ₚ map_to_list (sas p) → wf (revertStaleSa p target it).
Proof.
  intros Hwf Hit. unfold revertStaleSa, findIdxByStr.
  case_bool_decide as Ht; [done|].
  case_bool_decide as Hk; [|done].
  destruct (findIdxByStr_loop_found it target Hk) as (v & Hv & Hp).
  set (k := findIdxByStr_loop it target) in *.
  rewrite Hit in Hv. apply elem_of_map_to_list in Hv. rewrite Hv.
  simpl. rewrite Hp.
  pose proof (wf_revert p target _ v 0 ∅ 0 [] Hwf Hv Hp) as Hw.
  eapply wf_ext; [..|exact Hw]; simpl; done.
Qed.

(** The invariant of the index holds in every state reached by rebuilds
    from lists without repetition and by [staleSa] calls on identifiers of
    the reverse mapping, with any [activeSa], [revertStaleSa] and [rollup]
    calls in between. *)
Lemma reachable_known_wf max p : reachable_known max p → wf p.
Proof.
  induction 1 as [|p op _ IH Hvalid Hknown]; [apply wf_new|].
  destruct op as [data a|path|target it r|target it|]; simpl in *.
  - by apply updateSas_wf.
  - by apply activeSa_wf.
  - by apply staleSa_wf.
  - by apply revertStaleSa_wf.
  - by apply rollup_wf.
Qed.

End wf_calls.

(** ** [staleSa] *)

Section staleSa_facts.
Import Rotation Index.

(** With a draw in range, the loop of [randomPick] returns the index of a
    pair of the walk. *)
Lemma randomPick_loop_in it : ∀ r,
  0 ≤ r < Z.of_nat (length it) →
  ∃ k, (k, randomPick_loop it r) ∈ it.
Proof.
  induction it as [|[k v] it IH]; intros r Hr; simpl in *; [lia|].
  case_bool_decide as H0.
  - exists k. apply elem_of_cons. by left.
  - destruct (IH (r - 1)) as [k' Hk']; [lia|].
    exists k'. apply elem_of_cons. by right.
Qed.

Lemma wf_fresh_entry p i e :
  wf p → sas p !! i = Some e → isStale e = false →
  saPool p !! saPath e = Some i.
Proof.
  intros Hwf He Hs. apply (wf_reverse p Hwf).
  rewrite He. f_equal. destruct e as [s b]. simpl in *. by subst b.
Qed.

Lemma empty_pool_all_stale p :
  wf p → size (saPool p) = 0%nat → all_stale p.
Proof.
  intros Hwf Hsz i e He.
  destruct (isStale e) eqn:Hs; [done|].
  pose proof (wf_fresh_entry p i e Hwf He Hs) as Hin.
  apply map_size_empty_iff in Hsz. rewrite Hsz in Hin.
  by rewrite lookup_empty in Hin.
Qed.

(** [staleSa] where it works: in an index that satisfies its invariant,
    [staleSa] on a target (the argument, or the active identifier when the
    argument is empty) that is a key of the reverse mapping marks that
    entry stale; it reports
    exhausted exactly when every entry is then stale, in which case it
    returns the empty string, sets [activeIdx] to -1 and a following
    [rollup] returns the empty string; otherwise it returns the identifier
    of an entry that is not stale and that is the new active entry. *)
Theorem staleSa_known_target p target it r :
  wf p → is_Some (saPool p !! resolve p target) →
  it ≡ₚ map_to_list (delete (resolve p target) (saPool p)) →
  (it ≠ [] → 0 ≤ r < Z.of_nat (length it)) →
  let res := staleSa p target it r in
  let exhausted := res.1.1 in
  let id := res.1.2 in
  let p' := res.2 in
  (∃ idx, saPool p !! resolve p target = Some idx ∧
          sas p' !! idx = Some (mkSaEntry (resolve p target) true)) ∧
  (exhausted = true ↔ all_stale p') ∧
  (exhausted = true →
     id = "" ∧ activeIdx p' = -1 ∧ (rollup p').1 = "") ∧
  (exhausted = false →
     sas p' !! activeIdx p' = Some (mkSaEntry id false)).
Proof.
  intros Hwf Hknown Hit Hr res exhausted id p'.
  pose proof (staleSa_wf p target it r Hwf Hknown) as Hwf'.
  destruct Hknown as [idx Hidx].
  destruct (staleSa_known_maps p target it r idx Hwf Hidx) as [Hsas Hpool].
  fold res in Hwf', Hsas, Hpool. fold p' in Hwf', Hsas, Hpool.
  assert (sas p !! idx = Some (mkSaEntry (resolve p target) false)) as He
    by by apply (wf_reverse p Hwf).
  split.
  { exists idx. split; [done|]. rewrite Hsas. apply lookup_insert_eq. }
  (* the two ways out of [staleSa] *)
  assert ((exhausted = true ∧ id = "" ∧ activeIdx p' = -1 ∧
             size (saPool p') = 0%nat)
          ∨ (exhausted = false ∧ ∃ k, saPool p' !! k = Some (activeIdx p') ∧
               id = saPath (sas_at p' (activeIdx p')))) as Hcases.
  { subst exhausted id p' res. clear Hsas Hpool Hwf'.
    unfold staleSa. fold (resolve p target). cbv zeta.
    unfold saPool_at. rewrite Hidx. simpl. rewrite He. simpl.
    unfold isPoolEmpty. simpl.
    case_bool_decide as Hsz; simpl.
    - left. done.
    - right. unfold randomPick. simpl.
      rewrite (bool_decide_false (size _ = 0%nat)) by done.
      assert (it ≠ []) as Hne.
      { intros ->. apply Permutation_nil_l in Hit. symmetry in Hit.
        apply map_to_list_empty_iff in Hit. rewrite Hit in Hsz.
        by rewrite map_size_empty in Hsz. }
      destruct (randomPick_loop_in it r (Hr Hne)) as [k Hk].
      set (ret := randomPick_loop it r) in *.
      rewrite Hit in Hk. apply elem_of_map_to_list in Hk.
      assert (ret ≠ -1) as Hret.
      { intros Heq. rewrite Heq in Hk.
        pose proof (wf_stale p _ idx 0 ∅ 0 [] Hwf Hidx) as Hw.
        apply (wf_reverse _ Hw) in Hk. simpl in Hk.
        assert (is_Some (<[idx:=mkSaEntry (resolve p target) true]> (sas p) !! (-1)))
          as Hs by by eexists.
        apply (wf_dense _ Hw) in Hs. lia. }
      rewrite bool_decide_true by done. simpl.
      split; [done|]. exists k. done. }
  destruct Hcases as [(Hex & Hid & Hact & Hsz)|(Hex & k & Hk & Hid)].
  - pose proof (empty_pool_all_stale p' Hwf' Hsz) as Hall.
    split; [by split|]. split; [|intros; congruence].
    intros _. split; [done|]. split; [done|].
    apply rollup_all_stale; [apply (wf_dense _ Hwf')| |done].
    rewrite Hact. unfold len_sas. lia.
  - apply (wf_reverse _ Hwf') in Hk.
    split; [|split; [intros; congruence|]].
    + split; [intros; congruence|].
      intros Hall. apply Hall in Hk. done.
    + intros _. rewrite Hid. unfold sas_at. by rewrite Hk.
Qed.

End staleSa_facts.

(** ** What holds in every reachable state *)

Section shape_facts.
Import Rotation Index.

Lemma dense_insert_same p i e a' r' fs mx sv :
  dense p → is_Some (sas p !! i) →
  dense (mkPool (<[i := e]> (sas p)) a' r' fs mx sv).
Proof.
  intros Hd Hi j. rewrite len_sas_mk. simpl.
  rewrite map_size_insert_Some by done.
  destruct (decide (j = i)) as [->|Hne].
  - rewrite lookup_insert_eq. rewrite <- (Hd i). split; [done|by eexists].
  - rewrite lookup_insert_ne by done. apply Hd.
Qed.

Lemma shape_new max : shape (NewServiceAccountPool max).
Proof.
  split.
  - apply (wf_dense _ (wf_new max)).
  - unfold len_sas. simpl. lia.
  - intros s i. simpl. by rewrite lookup_empty.
Qed.

Lemma shape_key_bounds p i :
  dense p → is_Some (sas p !! i) → -1 ≤ i ≤ len_sas p.
Proof. intros Hd Hi. apply Hd in Hi. lia. Qed.

Lemma updateSas_shape p data a : shape p → shape (updateSas p data a).
Proof.
  intros Hsh.
  destruct (decide (data = [] ∨ a = "")) as [Hno|Hgo].
  { by rewrite updateSas_noop. }
  assert (data ≠ []) as Hd by tauto. assert (a ≠ "") as Ha by tauto.
  destruct (decide (a ∈ data)) as [Hin|Hnin].
  - destruct (updateSas_present p data a Hd Ha Hin) as (k & Hk & _ & ->).
    apply lookup_lt_Some in Hk.
    split.
    + intros i. rewrite len_sas_mk, fill_sas_size. apply fill_sas_is_Some.
    + rewrite len_sas_mk, fill_sas_size. simpl. lia.
    + intros s i. simpl. intros Hs.
      destruct (fill_pool_range _ _ _ _ _ _ Hs) as [[Hi _]|[_ He]].
      * apply fill_sas_is_Some. lia.
      * by rewrite lookup_empty in He.
  - rewrite (updateSas_absent p data a Hd Ha Hnin).
    assert ((fill 0 data (∅, ∅)).1 !! Z.of_nat (length data) = None) as Hnone.
    { rewrite fill_sas_out by lia. apply lookup_empty. }
    split.
    + intros i. rewrite len_sas_mk. simpl.
      rewrite map_size_insert_None, fill_sas_size by done.
      destruct (decide (i = Z.of_nat (length data))) as [->|Hne].
      * rewrite lookup_insert_eq. split; [intros _; lia|by eexists].
      * rewrite lookup_insert_ne by done. rewrite fill_sas_is_Some. lia.
    + rewrite len_sas_mk. simpl.
      rewrite map_size_insert_None, fill_sas_size by done. lia.
    + intros s i. simpl. intros Hs.
      destruct (decide (s = a)) as [->|Hne].
      * rewrite lookup_insert_eq in Hs. injection Hs as <-.
        rewrite lookup_insert_eq. by eexists.
      * rewrite lookup_insert_ne in Hs by done.
        destruct (fill_pool_range _ _ _ _ _ _ Hs) as [[Hi _]|[_ He]].
        -- rewrite lookup_insert_ne by lia. apply fill_sas_is_Some. lia.
        -- by rewrite lookup_empty in He.
Qed.

Lemma activeSa_shape p path : shape p → shape (activeSa p path).
Proof.
  intros [Hd Ha Hp]. unfold activeSa.
  destruct (saPool p !! path) as [i|] eqn:Hi; [|done].
  split; [done| |done].
  simpl. apply Hp in Hi. change (len_sas (set_activeIdx p i)) with (len_sas p).
  by apply shape_key_bounds.
Qed.

Lemma staleSa_shape p target it r :
  shape p → op_valid p (OpStaleSa target it r) →
  shape (staleSa p target it r).2.
Proof.
  intros [Hd Ha Hp] [Hit Hr].
  unfold staleSa. fold (resolve p target). cbv zeta.
  set (t := resolve p target) in *.
  set (p1 := match sas p !! saPool_at p t with
             | Some entry =>
                 set_sas p (<[saPool_at p t := mkSaEntry (saPath entry) true]> (sas p))
             | None => p
             end).
  assert (dense p1 ∧ len_sas p1 = len_sas p ∧ saPool p1 = saPool p ∧
          activeIdx p1 = activeIdx p ∧
          ∀ i, is_Some (sas p !! i) → is_Some (sas p1 !! i)) as (Hd1 & Hl1 & Hp1 & Ha1 & Hk1).
  { subst p1. destruct (sas p !! saPool_at p t) as [entry|] eqn:He; [|done].
    split; [apply dense_insert_same; [done|by eexists]|].
    split; [unfold len_sas; simpl; by rewrite map_size_insert_Some by by eexists|].
    split; [done|]. split; [done|].
    intros i Hi. simpl. destruct (decide (i = saPool_at p t)) as [->|Hne].
    - rewrite lookup_insert_eq. by eexists.
    - by rewrite lookup_insert_ne by done. }
  clearbody p1. rewrite Hp1.
  assert (∀ a', -1 ≤ a' ≤ len_sas p →
            shape (set_activeIdx (set_saPool p1 (delete t (saPool p))) a')) as Hgen.
  { intros a' Hb. split.
    - intros i. apply Hd1.
    - simpl. change (len_sas _) with (len_sas p1). lia.
    - intros s i. simpl. intros Hs.
      apply lookup_delete_Some in Hs as [_ Hs]. apply Hk1. by eapply Hp. }
  unfold isPoolEmpty. simpl. case_bool_decide as Hsz.
  - apply Hgen. lia.
  - unfold randomPick. simpl. rewrite (bool_decide_false (size _ = 0%nat)) by done.
    case_bool_decide as Hret.
    + apply Hgen.
      assert (it ≠ []) as Hne.
      { intros ->. apply Permutation_nil_l in Hit. symmetry in Hit.
        apply map_to_list_empty_iff in Hit. rewrite Hit in Hsz.
        by rewrite map_size_empty in Hsz. }
      destruct (randomPick_loop_in it r (Hr Hne)) as [k Hk].
      set (ret := randomPick_loop it r) in *.
      rewrite Hit in Hk. apply elem_of_map_to_list in Hk.
      apply lookup_delete_Some in Hk as [_ Hk].
      apply Hp in Hk. by apply shape_key_bounds.
    + specialize (Hgen (activeIdx p) Ha).
      replace (set_saPool p1 (delete t (saPool p)))
        with (set_activeIdx (set_saPool p1 (delete t (saPool p))) (activeIdx p)); [done|].
      unfold set_activeIdx, set_saPool. simpl. by rewrite Ha1.
Qed.

Lemma revertStaleSa_shape p target it :
  shape p → it ≡ₚ map_to_list (sas p) → shape (revertStaleSa p target it).
Proof.
  intros [Hd Ha Hp] Hit. unfold revertStaleSa, findIdxByStr.
  case_bool_decide as Ht; [done|].
  case_bool_decide as Hk; [|done].
  destruct (sas p !! findIdxByStr_loop it target) as [entry|] eqn:He; [|done].
  set (k := findIdxByStr_loop it target) in *.
  split.
  - apply dense_insert_same; [done|by eexists].
  - unfold len_sas. simpl. rewrite map_size_insert_Some by by eexists. done.
  - intros s i. simpl. intros Hs.
    destruct (decide (s = target)) as [->|Hne].
    + rewrite lookup_insert_eq in Hs. injection Hs as <-.
      rewrite lookup_insert_eq. by eexists.
    + rewrite lookup_insert_ne in Hs by done. apply Hp in Hs.
      destruct (decide (i = k)) as [->|Hik].
      * rewrite lookup_insert_eq. by eexists.
      * by rewrite lookup_insert_ne by done.
Qed.

(** Whatever the arguments of the calls, a reachable index is dense and
    its [activeIdx] is -1 or at most [len(sas)]: the states [rollup] is
    specified on. *)
Lemma reachable_shape max p : reachable max p → shape p.
Proof.
  induction 1 as [|p op _ IH Hvalid]; [apply shape_new|].
  destruct op as [data a|path|target it r|target it|]; simpl in *.
  - by apply updateSas_shape.
  - by apply activeSa_shape.
  - by apply staleSa_shape.
  - by apply revertStaleSa_shape.
  - unfold rollup. by repeat case_match.
Qed.

End shape_facts.

(** ** The reverse mapping over arbitrary calls *)

Section reverse_mapping.
Import Rotation Index Scenario.

Lemma built_known : reachable_known 100 built.
Proof.
  refine (known_step 100 _ rebuild_abc (known_new 100) I _).
  unfold rebuild_abc, op_known. apply (bool_decide_unpack _). vm_compute. exact I.
Qed.

Lemma stale_once_known : reachable_known 100 stale_once.
Proof.
  refine (known_step 100 _ stale_b built_known _ _).
  - unfold stale_b, op_valid. split.
    + vm_compute. reflexivity.
    + intros _. cbn [length]. lia.
  - unfold stale_b, op_known. vm_compute. by eexists.
Qed.

Lemma reachable_known_reachable max p :
  reachable_known max p → reachable max p.
Proof.
  induction 1 as [|p op _ IH Hvalid _]; [apply reach_new|by apply reach_step].
Qed.

(** C1: the reverse mapping does not stay exact over arbitrary calls.  After
    [updateSas([a, b, c], a)] and [staleSa("b")] it is exact; a second
    [staleSa("b")] reads the index of "b" from a reverse mapping that no
    longer holds it, gets the zero value 0 and marks entry 0 stale: "a" is
    then stale in [sas] and still a key of [saPool], and the call hands out
    "a" as the new active identifier. *)
Theorem staleSa_twice_breaks_reverse_mapping :
  reachable 100 stale_twice ∧
  reverse_exact stale_once ∧
  saPool stale_once !! "b" = None ∧
  (staleSa stale_once "b" [("c", 2); ("a", 0)] 1).1 = (false, "a") ∧
  sas stale_twice !! 0 = Some (mkSaEntry "a" true) ∧
  saPool stale_twice !! "a" = Some 0 ∧
  ¬ reverse_exact stale_twice.
Proof.
  split; [|split; [|split; [|split; [|split; [|split]]]]].
  - refine (reach_step 100 _ stale_b
              (reachable_known_reachable _ _ stale_once_known) _).
    unfold stale_b, op_valid. split.
    + vm_compute. reflexivity.
    + intros _. cbn [length]. lia.
  - apply (wf_reverse _ (reachable_known_wf _ _ stale_once_known)).
  - vm_compute. reflexivity.
  - vm_compute. reflexivity.
  - vm_compute. reflexivity.
  - vm_compute. reflexivity.
  - intros H. specialize (H "a" 0). destruct H as [H _].
    assert (saPool stale_twice !! "a" = Some 0) as Ha by (vm_compute; reflexivity).
    apply H in Ha. vm_compute in Ha. discriminate.
Qed.

End reverse_mapping.

(** ** The rotation claims on the index built from [a, b, c] *)

Section rotation_witnesses.
Import Rotation Index Scenario.

Lemma built_wf : wf built.
Proof. exact (reachable_known_wf _ _ built_known). Qed.

Lemma rollup_first_fresh_witness :
  dense built ∧ -1 ≤ activeIdx built ≤ len_sas built ∧
  (rollup built).2 = built ∧ (all_stale built → (rollup built).1 = "").
Proof.
  assert (dense built) as Hd by exact (wf_dense _ built_wf).
  assert (-1 ≤ activeIdx built ≤ len_sas built) as Hb.
  { assert (activeIdx built = 0) as -> by (vm_compute; reflexivity).
    assert (len_sas built = 3) as -> by (vm_compute; reflexivity). lia. }
  destruct (rollup_first_fresh built Hd Hb) as (Hframe & _ & Hall).
  split; [exact Hd|]. split; [exact Hb|]. split; [exact Hframe|exact Hall].
Defined.

Lemma staleSa_known_target_witness :
  wf built ∧ is_Some (saPool built !! resolve built "b") ∧
  let res := staleSa built "b" [("c", 2); ("a", 0)] 1 in
  (res.1.1 = true ↔ all_stale res.2) ∧
  (res.1.1 = false → sas res.2 !! activeIdx res.2 = Some (mkSaEntry res.1.2 false)).
Proof.
  assert (is_Some (saPool built !! resolve built "b")) as Hk
    by (vm_compute; by eexists).
  assert ([("c", 2); ("a", 0)] ≡ₚ map_to_list (delete (resolve built "b") (saPool built)))
    as Hit by (vm_compute; reflexivity).
  assert ([("c", 2); ("a", 0)] ≠ [] → 0 ≤ 1 < Z.of_nat (length [("c", 2); ("a", 0)]))
    as Hr by (intros _; cbn [length]; lia).
  destruct (staleSa_known_target built "b" [("c", 2); ("a", 0)] 1 built_wf Hk Hit Hr)
    as (_ & Hiff & _ & Hfresh).
  split; [exact built_wf|]. split; [exact Hk|]. split; [exact Hiff|exact Hfresh].
Defined.

End rotation_witnesses.

(** ** The cache of preloaded services *)

Section cache_facts.
Import Cache Scenario.

Lemma GetService_svcs p :
  svcs (GetService p).2 = match svcs p with [] => [] | x :: l => l ++ [x] end.
Proof. unfold GetService. destruct (svcs p) eqn:E; simpl; [exact E|done]. Qed.

Lemma GetClient_svcs p :
  svcs (GetClient p).2 = match svcs p with [] => [] | x :: l => l ++ [x] end.
Proof. unfold GetClient. destruct (svcs p) eqn:E; simpl; [exact E|done]. Qed.

Lemma rotate_Permutation {A} (l : list A) :
  match l with [] => [] | x :: l' => l' ++ [x] end ≡ₚ l.
Proof. destruct l as [|x l']; [done|]. symmetry. apply Permutation_cons_append. Qed.

(** C7: [GetService] and [GetClient] fail exactly on the empty cache, and
    then change nothing; on a cache [front :: rest] they return the handle
    of [front] and the cache afterwards is [rest ++ [front]], the front
    pair moved to the back: the same pairs, as many as before.  No other
    field of the pool changes. *)
Theorem take_rotates p :
  ((GetService p).1.2 = Some ErrNoPreloaded ↔ svcs p = []) ∧
  ((GetClient p).1.2 = Some ErrNoPreloaded ↔ svcs p = []) ∧
  (svcs p = [] →
     GetService p = ((None, Some ErrNoPreloaded), p) ∧
     GetClient p = ((None, Some ErrNoPreloaded), p)) ∧
  (∀ front rest, svcs p = front :: rest →
     (GetService p).1 = (Service front, None) ∧
     svcs (GetService p).2 = rest ++ [front] ∧
     (GetClient p).1 = (Client front, None) ∧
     svcs (GetClient p).2 = rest ++ [front]) ∧
  length (svcs (GetService p).2) = length (svcs p) ∧
  length (svcs (GetClient p).2) = length (svcs p) ∧
  svcs (GetService p).2 ≡ₚ svcs p ∧
  svcs (GetClient p).2 ≡ₚ svcs p ∧
  (sas (GetService p).2 = sas p ∧ saPool (GetService p).2 = saPool p ∧
   activeIdx (GetService p).2 = activeIdx p ∧ Files (GetService p).2 = Files p ∧
   Max (GetService p).2 = Max p) ∧
  (sas (GetClient p).2 = sas p ∧ saPool (GetClient p).2 = saPool p ∧
   activeIdx (GetClient p).2 = activeIdx p ∧ Files (GetClient p).2 = Files p ∧
   Max (GetClient p).2 = Max p).
Proof.
  split; [|split; [|split; [|split; [|split; [|split; [|split; [|split; [|split]]]]]]]].
  - unfold GetService. destruct (svcs p); simpl; split; done.
  - unfold GetClient. destruct (svcs p); simpl; split; done.
  - intros He. unfold GetService, GetClient. by rewrite He.
  - intros front rest He.
    split; [unfold GetService; by rewrite He|].
    split; [by rewrite GetService_svcs, He|].
    split; [unfold GetClient; by rewrite He|].
    by rewrite GetClient_svcs, He.
  - rewrite GetService_svcs. by rewrite rotate_Permutation.
  - rewrite GetClient_svcs. by rewrite rotate_Permutation.
  - rewrite GetService_svcs. apply rotate_Permutation.
  - rewrite GetClient_svcs. apply rotate_Permutation.
  - unfold GetService. by destruct (svcs p).
  - unfold GetClient. by destruct (svcs p).
Qed.

(** C10: on a cache [a :: b :: rest], [GetService] followed by
    [GetClient] returns the service of [a], the pair at position 0, and the
    client of [b], the pair at position 1, and leaves [rest ++ [a; b]];
    when no client handle occurs in two pairs, the client returned is not
    the client of the pair whose service was returned. *)
Theorem service_then_client_split p a b rest :
  svcs p = a :: b :: rest →
  let r1 := GetService p in
  let r2 := GetClient r1.2 in
  r1.1 = (Service a, None) ∧
  r2.1 = (Client b, None) ∧
  svcs r2.2 = rest ++ [a; b] ∧
  svcs p !! 0%nat = Some a ∧ svcs p !! 1%nat = Some b ∧
  (NoDup (Client <$> svcs p) → r2.1.1 ≠ Client a).
Proof.
  intros Hp r1 r2. subst r1 r2.
  unfold GetService. rewrite Hp. simpl.
  unfold GetClient. simpl.
  split; [done|]. split; [done|]. split; [by rewrite <- app_assoc|].
  split; [done|]. split; [done|].
  intros Hnd Heq. apply NoDup_cons in Hnd as [Hnin _].
  apply Hnin. rewrite Heq. apply elem_of_cons. by left.
Qed.

Lemma service_then_client_split_witness :
  let p := set_svcs (NewServiceAccountPool 3)
             [mkInfo (Some 1%nat) (Some 11%nat); mkInfo (Some 2%nat) (Some 12%nat);
              mkInfo (Some 3%nat) (Some 13%nat)] in
  (GetService p).1 = (Some 1%nat, None) ∧
  (GetClient (GetService p).2).1 = (Some 12%nat, None).
Proof.
  intros p.
  destruct (service_then_client_split p
              (mkInfo (Some 1%nat) (Some 11%nat)) (mkInfo (Some 2%nat) (Some 12%nat))
              [mkInfo (Some 3%nat) (Some 13%nat)] eq_refl) as (H1 & H2 & _).
  split; [exact H1|exact H2].
Defined.

(** [AddService] and the two takes keep the cache within a non-negative
    [Max]. *)
Lemma AddService_within_max p c s p' :
  AddService p c s = Done p' →
  Z.of_nat (length (svcs p')) ≤ Max p' ∧ Max p' = Max p.
Proof.
  unfold AddService. cbv zeta.
  destruct (Z.ltb_spec (Max p) (Z.of_nat (length (mkInfo s c :: svcs p)))) as [Hlt|Hge].
  - destruct (Z.ltb_spec (Max p) 0) as [Hneg|Hpos]; [done|].
    intros [= <-]. simpl. rewrite length_take. split; [lia|done].
  - intros [= <-]. simpl in *. split; [lia|done].
Qed.

Lemma offers_and_takes_within_max ops : ∀ p p',
  Forall (λ op, match op with Preload _ _ _ => False | _ => True end) ops →
  Z.of_nat (length (svcs p)) ≤ Max p →
  run p ops = Done p' →
  Z.of_nat (length (svcs p')) ≤ Max p'.
Proof.
  induction ops as [|op ops IH]; intros p p' Hops Hle Hrun; simpl in Hrun.
  - by injection Hrun as <-.
  - apply Forall_cons in Hops as [Hop Hops].
    destruct (step p op) as [p1|] eqn:Hstep; [|done].
    apply (IH p1 p' Hops); [|done].
    destruct op as [c s| | |? ? ?]; simpl in Hstep; [| | |done].
    + by apply AddService_within_max in Hstep as [? _].
    + injection Hstep as <-. rewrite GetService_svcs.
      pose proof (Permutation_length (rotate_Permutation (svcs p))) as ->.
      unfold GetService. by destruct (svcs p).
    + injection Hstep as <-. rewrite GetClient_svcs.
      pose proof (Permutation_length (rotate_Permutation (svcs p))) as ->.
      unfold GetClient. by destruct (svcs p).
Qed.

(** C4: [PreloadServices] prepends what it built and does not cut the
    cache at [Max].  With [Max = 2], two [AddService] calls fill the cache;
    preloading the two files of the pool then leaves four pairs. *)
Theorem preload_exceeds_max :
  ∃ p', run two_files fill_then_preload = Done p' ∧
        Max p' = 2 ∧ length (svcs p') = 4%nat ∧
        ¬ (Z.of_nat (length (svcs p')) ≤ Max p') ∧
        ["/sa/sa1.json"; "/sa/sa2.json"] ≡ₚ elements (Files two_files).
Proof.
  eexists. split; [vm_compute; reflexivity|].
  split; [reflexivity|]. split; [reflexivity|]. split.
  - simpl. lia.
  - vm_compute. reflexivity.
Qed.

End cache_facts.

(** ** [_getFile] *)

Section getFile_facts.
Import FilePool.

(** Saturation of [Time.Sub] does not change the comparison with 25 hours. *)
Lemma Since_expired now t :
  (blacklistDuration <? Clock.Since now t) = true ↔ blacklistDuration < now - t.
Proof.
  rewrite Z.ltb_lt.
  unfold Clock.Since, Clock.Sub, blacklistDuration, Clock.Hour,
    Clock.minDuration, Clock.maxDuration.
  destruct (Z.ltb_spec (now - t) (- 2 ^ 63)); [lia|].
  destruct (Z.ltb_spec (2 ^ 63 - 1) (now - t)); lia.
Qed.

Lemma Since_unexpired now t :
  (blacklistDuration <? Clock.Since now t) = false ↔ now - t ≤ blacklistDuration.
Proof.
  rewrite <- not_true_iff_false, Since_expired. lia.
Qed.

Lemma omap_lookup_seq (l : list string) : ∀ pre,
  omap (λ idx, (pre ++ l) !! idx) (seq (length pre) (length l)) = l.
Proof.
  induction l as [|x l IH]; intros pre; [done|].
  cbn [length seq omap list_omap]. rewrite list_lookup_middle by done. f_equal.
  specialize (IH (pre ++ [x])).
  rewrite <- app_assoc, length_app in IH. simpl in IH.
  by rewrite Nat.add_1_r in IH.
Qed.

Lemma visits_Permutation files keys perm :
  valid_draw files keys perm → visits keys perm ≡ₚ elements files.
Proof.
  intros [Hk Hp]. unfold visits. rewrite Hp, <- Hk.
  apply (reflexive_eq (R := (≡ₚ))). apply (omap_lookup_seq keys []).
Qed.

Lemma valid_draw_in_range files keys perm :
  valid_draw files keys perm → Forall (λ idx, (idx < length keys)%nat) perm.
Proof.
  intros [_ Hp]. apply Forall_forall. intros idx Hin.
  rewrite Hp in Hin. apply elem_of_seq in Hin. lia.
Qed.

(** With indices in range the loop does not panic and is the loop over
    the identifiers visited. *)
Lemma pick_visits keys clock perm : ∀ j bl,
  Forall (λ idx, (idx < length keys)%nat) perm →
  pick keys clock j perm bl = Done (pick_in_order clock j (visits keys perm) bl).
Proof.
  induction perm as [|idx perm IH]; intros j bl Hr; [done|].
  apply Forall_cons in Hr as [Hidx Hr].
  destruct (lookup_lt_is_Some_2 keys idx Hidx) as [file Hf].
  unfold visits. cbn [pick omap list_omap]. rewrite Hf. cbn [pick_in_order].
  destruct (bl !! file) as [t|]; [|done].
  destruct (blacklistDuration <? Clock.Since (clock j) t); [done|].
  by apply IH.
Qed.

(** What the loop does with a list of identifiers. *)
Lemma pick_in_order_result clock vs : ∀ j bl,
  (∃ pre f post,
      vs = pre ++ f :: post ∧
      (∀ m f', pre !! m = Some f' → unexpired bl clock (j + m) f') ∧
      ((bl !! f = None ∧ pick_in_order clock j vs bl = ((f, None), bl))
       ∨ (∃ t, bl !! f = Some t ∧
               blacklistDuration < clock (j + length pre)%nat - t ∧
               pick_in_order clock j vs bl = ((f, None), delete f bl))))
  ∨ ((∀ m f', vs !! m = Some f' → unexpired bl clock (j + m) f') ∧
     pick_in_order clock j vs bl = (("", Some ErrAllBlacklisted), bl)).
Proof.
  induction vs as [|file vs IH]; intros j bl.
  - right. split; [|done]. intros m f'. by rewrite lookup_nil.
  - cbn [pick_in_order].
    destruct (bl !! file) as [t|] eqn:Hb.
    + destruct (blacklistDuration <? Clock.Since (clock j) t) eqn:Hx.
      * left. exists [], file, vs. split; [done|]. split.
        { intros m f'. by rewrite lookup_nil. }
        right. exists t. split; [done|]. split; [|done].
        apply Since_expired in Hx. simpl. by rewrite Nat.add_0_r.
      * apply Since_unexpired in Hx.
        destruct (IH (S j) bl) as [(pre & f & post & -> & Hpre & Hres)|[Hall Hres]].
        -- left. exists (file :: pre), f, post. split; [done|]. split.
           ++ intros [|m] f'; simpl.
              ** intros [= <-]. rewrite Nat.add_0_r. by exists t.
              ** intros Hm. replace (j + S m)%nat with (S j + m)%nat by lia.
                 by apply Hpre.
           ++ simpl. replace (j + S (length pre))%nat with (S j + length pre)%nat by lia.
              exact Hres.
        -- right. split; [|done]. intros [|m] f'; simpl.
           ++ intros [= <-]. rewrite Nat.add_0_r. by exists t.
           ++ intros Hm. replace (j + S m)%nat with (S j + m)%nat by lia.
              by apply Hall.
    + left. exists [], file, vs. split; [done|]. split.
      { intros m f'. by rewrite lookup_nil. }
      left. done.
Qed.

End getFile_facts.

Section getFile_claims.
Import FilePool.

(** [_getFile] on a valid draw, in one equation. *)
Lemma getFile_run p bl x now keys perm clock :
  valid_draw (remaining p x) keys perm →
  let p1 := if bool_decide (x ≠ "") then set_Files p (Files p ∖ {[x]}) else p in
  let bl1 := if bool_decide (x ≠ "") then <[x := now]> bl else bl in
  _getFile p bl x now keys perm clock =
    if bool_decide (size (remaining p x) = 0%nat)
    then Done (("", Some ErrNoFile), (p1, bl1))
    else Done ((pick_in_order clock 0 (visits keys perm) bl1).1,
               (p1, (pick_in_order clock 0 (visits keys perm) bl1).2)).
Proof.
  intros Hv p1 bl1. unfold _getFile, remaining in *.
  subst p1 bl1. case_bool_decide as Hx; simpl.
  - case_bool_decide as Hsz; [done|].
    rewrite (pick_visits keys clock perm 0 _ (valid_draw_in_range _ _ _ Hv)).
    by destruct (pick_in_order clock 0 (visits keys perm) (<[x:=now]> bl)).
  - case_bool_decide as Hsz; [done|].
    rewrite (pick_visits keys clock perm 0 _ (valid_draw_in_range _ _ _ Hv)).
    by destruct (pick_in_order clock 0 (visits keys perm) bl).
Qed.

Lemma remaining_not_excluded p x f :
  f ∈ remaining p x → x = "" ∨ f ≠ x.
Proof.
  unfold remaining. case_bool_decide as Hx.
  - intros [_ Hf]%elem_of_difference. right. intros ->.
    apply Hf. by apply elem_of_singleton.
  - intros _. left. by destruct (decide (x = "")); [|destruct Hx].
Qed.

(** The registry after the store agrees with the one before on the
    identifiers left to select from. *)
Lemma stored_lookup p (bl : Blacklist) x (now : Z) f :
  f ∈ remaining p x →
  (if bool_decide (x ≠ "") then <[x := now]> bl else bl) !! f = bl !! f.
Proof.
  intros Hf. case_bool_decide as Hx; [|done].
  apply lookup_insert_ne.
  destruct (remaining_not_excluded p x f Hf) as [->|Hne]; [done|].
  by intros ->.
Qed.

Lemma visits_length files keys perm :
  valid_draw files keys perm → length (visits keys perm) = length perm.
Proof.
  intros Hv. rewrite (visits_Permutation _ _ _ Hv).
  destruct Hv as [Hk Hp]. rewrite <- Hk, Hp. by rewrite length_seq.
Qed.

Lemma visits_remaining files keys perm m f :
  valid_draw files keys perm → visits keys perm !! m = Some f → f ∈ files.
Proof.
  intros Hv Hm. apply elem_of_elements.
  rewrite <- (visits_Permutation _ _ _ Hv). by eapply list_elem_of_lookup_2.
Qed.

(** A draw that examines [f] first. *)
Lemma draw_first files f :
  f ∈ files →
  let keys := f :: elements (files ∖ {[f]}) in
  valid_draw files keys (seq 0 (length keys)) ∧
  visits keys (seq 0 (length keys)) = keys.
Proof.
  intros Hf keys. split; [split; [|done]|].
  - subst keys. rewrite (union_difference_singleton_L f files Hf) at 2.
    symmetry. apply elements_union_singleton.
    apply not_elem_of_difference. right. by apply elem_of_singleton.
  - apply (omap_lookup_seq keys []).
Qed.

(** C3: with a non-empty [excludeFile] [x], [_getFile] stores [x] with
    the current time in the blacklist and removes it from [Files] whatever
    the outcome; no other key is added (so the empty key is not), and the
    only entry that can go is the expired one of the file returned.  The
    error is [ErrNoFile] exactly when no file is left after the removal,
    and [ErrAllBlacklisted] exactly when files are left and each of them
    has an entry at most 25 hours old when the loop examines it. *)
Theorem getFile_exclude p (bl : Blacklist) x now keys perm clock :
  x ≠ "" → valid_draw (Files p ∖ {[x]}) keys perm →
  ∃ file err bl',
    _getFile p bl x now keys perm clock =
      Done ((file, err), (set_Files p (Files p ∖ {[x]}), bl')) ∧
    bl' !! x = Some now ∧
    (∀ k, k ≠ x →
       bl' !! k = bl !! k ∨ (err = None ∧ k = file ∧ bl' !! k = None)) ∧
    (bl !! "" = None → bl' !! "" = None) ∧
    (err = Some ErrNoFile ↔ Files p ∖ {[x]} = ∅) ∧
    (err = Some ErrAllBlacklisted ↔
       Files p ∖ {[x]} ≠ ∅ ∧
       ∀ m f, visits keys perm !! m = Some f → unexpired bl clock m f) ∧
    visits keys perm ≡ₚ elements (Files p ∖ {[x]}) ∧
    (err = None → file ∈ Files p ∖ {[x]}).
Proof.
  intros Hx Hv.
  assert (remaining p x = Files p ∖ {[x]}) as Hrem.
  { unfold remaining. by rewrite bool_decide_true. }
  rewrite <- Hrem in Hv.
  pose proof (getFile_run p bl x now keys perm clock Hv) as Hrun.
  cbv zeta in Hrun. rewrite (bool_decide_true (x ≠ "")) in Hrun by done.
  rewrite Hrem in Hrun, Hv.
  assert (∀ m f, visits keys perm !! m = Some f →
            f ≠ x ∧ <[x:=now]> bl !! f = bl !! f) as Hother.
  { intros m f Hm. apply (visits_remaining _ _ _ _ _ Hv) in Hm.
    apply elem_of_difference in Hm as [_ Hm].
    assert (f ≠ x) as Hne by (intros ->; apply Hm; by apply elem_of_singleton).
    split; [done|]. by apply lookup_insert_ne. }
  assert (∀ m f, visits keys perm !! m = Some f →
            (unexpired (<[x:=now]> bl) clock m f ↔ unexpired bl clock m f)) as Hun.
  { intros m f Hm. destruct (Hother m f Hm) as [_ Heq].
    unfold unexpired. by rewrite Heq. }
  case_bool_decide as Hsz.
  - (* nothing left *)
    apply size_empty_iff, leibniz_equiv in Hsz.
    exists "", (Some ErrNoFile), (<[x:=now]> bl).
    split; [done|]. split; [apply lookup_insert_eq|].
    split; [intros k Hk; left; by apply lookup_insert_ne|].
    split; [intros He; by rewrite lookup_insert_ne|].
    split; [done|]. split; [|split; [by apply visits_Permutation|done]].
    split; [done|]. by intros [Hne _].
  - assert (Files p ∖ {[x]} ≠ ∅) as Hne.
    { intros He. apply Hsz. rewrite He. apply size_empty. }
    destruct (pick_in_order_result clock (visits keys perm) 0 (<[x:=now]> bl))
      as [(pre & f & post & Hvs & Hpre & Hres)|[Hall Hres]].
    + (* [f] is returned *)
      assert (visits keys perm !! length pre = Some f) as Hf.
      { rewrite Hvs. by apply list_lookup_middle. }
      destruct (Hother _ _ Hf) as [Hfx Hfeq].
      assert (¬ unexpired (<[x:=now]> bl) clock (length pre) f) as Hexp.
      { intros (t' & Ht' & Hage).
        destruct Hres as [[Hnone _]|(t & Ht & Hlate & _)]; [congruence|].
        rewrite Ht in Ht'. injection Ht' as <-. simpl in Hlate. lia. }
      assert (f ∈ Files p ∖ {[x]}) as Hfin by by eapply visits_remaining.
      destruct Hres as [[Hnone Hres]|(t & Ht & Hlate & Hres)];
        rewrite Hres in Hrun; simpl in Hrun.
      * exists f, None, (<[x:=now]> bl).
        split; [done|]. split; [apply lookup_insert_eq|].
        split; [intros k Hk; left; by apply lookup_insert_ne|].
        split; [intros He; by rewrite lookup_insert_ne|].
        split; [split; [done|by intros ?]|].
        split; [|split; [by apply visits_Permutation|done]].
        split; [done|]. intros [_ Hall]. exfalso.
        apply Hexp. apply (Hun _ _ Hf). by apply Hall.
      * exists f, None, (delete f (<[x:=now]> bl)).
        split; [done|].
        split; [rewrite lookup_delete_ne by done; apply lookup_insert_eq|].
        split.
        { intros k Hk. destruct (decide (k = f)) as [->|Hkf].
          - right. split; [done|]. split; [done|]. apply lookup_delete_eq.
          - left. rewrite lookup_delete_ne by done. by apply lookup_insert_ne. }
        split.
        { intros He. destruct (decide ("" = f)) as [<-|Hef].
          - apply lookup_delete_eq.
          - rewrite lookup_delete_ne by done. by rewrite lookup_insert_ne. }
        split; [split; [done|by intros ?]|].
        split; [|split; [by apply visits_Permutation|done]].
        split; [done|]. intros [_ Hall]. exfalso.
        apply Hexp. apply (Hun _ _ Hf). by apply Hall.
    + (* every file left is blacklisted *)
      rewrite Hres in Hrun. simpl in Hrun.
      exists "", (Some ErrAllBlacklisted), (<[x:=now]> bl).
      split; [done|]. split; [apply lookup_insert_eq|].
      split; [intros k Hk; left; by apply lookup_insert_ne|].
      split; [intros He; by rewrite lookup_insert_ne|].
      split; [split; [done|by intros ?]|].
      split; [|split; [by apply visits_Permutation|done]].
      split; [|done]. intros _. split; [done|].
      intros m f Hm. apply (Hun _ _ Hm). simpl in Hall. by apply Hall.
Qed.

(** C2: on a valid draw [_getFile] returns; a file it returns is one of
    the files left after the exclusion, has no blacklist entry afterwards,
    and if it had one before, the loop measured that entry as more than 25
    hours old; and a file left after the exclusion whose entry is more than
    25 hours old is returned, its entry deleted, by the draw that examines
    it first. *)
Theorem getFile_respects_blacklist p (bl : Blacklist) x now keys perm clock :
  valid_draw (remaining p x) keys perm →
  (∃ res st, _getFile p bl x now keys perm clock = Done (res, st)) ∧
  (∀ f p' bl',
     _getFile p bl x now keys perm clock = Done ((f, None), (p', bl')) →
     f ∈ remaining p x ∧ bl' !! f = None ∧
     ∀ t, bl !! f = Some t →
       ∃ m, (m < length perm)%nat ∧ blacklistDuration < clock m - t) ∧
  (∀ f t,
     f ∈ remaining p x → bl !! f = Some t →
     blacklistDuration < clock 0%nat - t →
     ∃ keys' perm' p' bl',
       valid_draw (remaining p x) keys' perm' ∧
       _getFile p bl x now keys' perm' clock = Done ((f, None), (p', bl')) ∧
       bl' !! f = None).
Proof.
  intros Hv.
  pose proof (getFile_run p bl x now keys perm clock Hv) as Hrun.
  cbv zeta in Hrun.
  set (bl1 := if bool_decide (x ≠ "") then <[x:=now]> bl else bl) in *.
  split; [|split].
  - rewrite Hrun. case_bool_decide; by eexists _, _.
  - intros f p' bl' Hres. rewrite Hres in Hrun.
    case_bool_decide as Hsz; [done|].
    injection Hrun as Hr1 _ Hr2.
    destruct (pick_in_order_result clock (visits keys perm) 0 bl1)
      as [(pre & f0 & post & Hvs & Hpre & Hpick)|[_ Hpick]].
    + assert (visits keys perm !! length pre = Some f0) as Hf0.
      { rewrite Hvs. by apply list_lookup_middle. }
      assert (length pre < length perm)%nat as Hlen.
      { rewrite <- (visits_length _ _ _ Hv). by eapply lookup_lt_Some. }
      pose proof (visits_remaining _ _ _ _ _ Hv Hf0) as Hin.
      pose proof (stored_lookup p bl x now f0 Hin) as Hsame. fold bl1 in Hsame.
      destruct Hpick as [[Hnone Hpick]|(t0 & Ht0 & Hlate & Hpick)];
        rewrite Hpick in Hr1, Hr2; simpl in Hr1, Hr2;
        injection Hr1 as ->; subst bl'.
      * split; [done|]. split; [done|]. intros t Ht. congruence.
      * split; [done|]. split; [apply lookup_delete_eq|].
        intros t Ht. exists (length pre). split; [done|].
        rewrite Hsame, Ht in Ht0. injection Ht0 as <-. exact Hlate.
    + rewrite Hpick in Hr1. simpl in Hr1. congruence.
  - intros f t Hin Ht Hlate.
    destruct (draw_first (remaining p x) f Hin) as [Hv' Hvis].
    set (keys' := f :: elements (remaining p x ∖ {[f]})) in *.
    pose proof (getFile_run p bl x now keys' (seq 0 (length keys')) clock Hv') as Hrun'.
    cbv zeta in Hrun'. fold bl1 in Hrun'.
    rewrite bool_decide_false in Hrun'.
    2:{ intros Hsz. apply size_empty_iff in Hsz.
        apply (Hsz f) in Hin. by apply elem_of_empty in Hin. }
    rewrite Hvis in Hrun'.
    pose proof (stored_lookup p bl x now f Hin) as Hsame. fold bl1 in Hsame.
    assert (pick_in_order clock 0 keys' bl1 = ((f, None), delete f bl1)) as Hpick.
    { unfold keys'. cbn [pick_in_order]. rewrite Hsame, Ht.
      by rewrite (proj2 (Since_expired (clock 0%nat) t) Hlate). }
    rewrite Hpick in Hrun'. simpl in Hrun'.
    eexists keys', _, _, _. split; [exact Hv'|]. split; [exact Hrun'|].
    apply lookup_delete_eq.
Qed.

End getFile_claims.

(** ** The selection claims on a pool of two files *)

Section getFile_witnesses.
Import FilePool Scenario.

Lemma getFile_respects_blacklist_witness :
  valid_draw (remaining two_files "") ["/sa/sa1.json"; "/sa/sa2.json"] [0%nat; 1%nat] ∧
  ∃ res st,
    _getFile two_files registry "" (100 * Clock.Hour)
      ["/sa/sa1.json"; "/sa/sa2.json"] [0%nat; 1%nat] at_100h = Done (res, st).
Proof.
  assert (valid_draw (remaining two_files "")
            ["/sa/sa1.json"; "/sa/sa2.json"] [0%nat; 1%nat]) as Hv.
  { split; vm_compute; reflexivity. }
  split; [exact Hv|].
  exact (proj1 (getFile_respects_blacklist two_files registry "" (100 * Clock.Hour)
                  _ _ at_100h Hv)).
Defined.

Lemma getFile_exclude_witness :
  "/sa/sa1.json" ≠ "" ∧
  valid_draw (Files two_files ∖ {["/sa/sa1.json"]}) ["/sa/sa2.json"] [0%nat] ∧
  ∃ file err bl',
    _getFile two_files registry "/sa/sa1.json" (100 * Clock.Hour)
      ["/sa/sa2.json"] [0%nat] at_100h =
      Done ((file, err), (set_Files two_files (Files two_files ∖ {["/sa/sa1.json"]}), bl')) ∧
    bl' !! "/sa/sa1.json" = Some (100 * Clock.Hour).
Proof.
  assert ("/sa/sa1.json" ≠ "") as Hx by done.
  assert (valid_draw (Files two_files ∖ {["/sa/sa1.json"]}) ["/sa/sa2.json"] [0%nat])
    as Hv.
  { split; vm_compute; reflexivity. }
  split; [exact Hx|]. split; [exact Hv|].
  destruct (getFile_exclude two_files registry "/sa/sa1.json" (100 * Clock.Hour)
              ["/sa/sa2.json"] [0%nat] at_100h Hx Hv)
    as (file & err & bl' & Hrun & Hstored & _).
  exists file, err, bl'. split; [exact Hrun|exact Hstored].
Defined.

(** The runs of [saPool_test.go] on the model. *)

(** [TestBlacklistExpiry]: an entry 26 hours old does not keep the file
    back, and is gone afterwards. *)
Example test_blacklist_expiry :
  _getFile (set_Files (NewServiceAccountPool 100) {["/sa/sa1.json"]})
    registry "" (100 * Clock.Hour) ["/sa/sa1.json"] [0%nat] at_100h
  = Done (("/sa/sa1.json", None),
          (set_Files (NewServiceAccountPool 100) {["/sa/sa1.json"]},
           delete "/sa/sa1.json" registry)).
Proof. vm_compute. reflexivity. Qed.

(** [TestGetFileAllBlacklisted] *)
Example test_all_blacklisted :
  (λ r, match r with Done (res, _) => Some res | Panicked => None end)
    (_getFile two_files
       (<["/sa/sa1.json" := 100 * Clock.Hour]> (<["/sa/sa2.json" := 100 * Clock.Hour]> ∅))
       "" (100 * Clock.Hour) ["/sa/sa1.json"; "/sa/sa2.json"] [1%nat; 0%nat] at_100h)
  = Some ("", Some ErrAllBlacklisted).
Proof. vm_compute. reflexivity. Qed.

(** [TestGetFileEmpty] *)
Example test_get_file_empty :
  (λ r, match r with Done (res, _) => Some res | Panicked => None end)
    (_getFile (NewServiceAccountPool 100) ∅ "" 0 [] [] at_100h)
  = Some ("", Some ErrNoFile).
Proof. vm_compute. reflexivity. Qed.

(** [TestAddServiceMaxCap] *)
Example test_add_service_max_cap :
  (λ r, match r with Done p => Some (length (svcs p)) | Panicked => None end)
    (Cache.run (NewServiceAccountPool 2)
       [Cache.Offer None None; Cache.Offer None None; Cache.Offer None None])
  = Some 2%nat.
Proof. vm_compute. reflexivity. Qed.

(** [TestUpdate] and [TestRollingDirect] *)
Example test_update :
  activeIdx (Rotation.updateSas (NewServiceAccountPool 100) ["a"; "b"; "c"; "d"] "a") = 0 ∧
  activeIdx (Rotation.updateSas (NewServiceAccountPool 100) ["a"; "b"; "c"; "d"] "d") = 3 ∧
  activeIdx (Rotation.updateSas (NewServiceAccountPool 100) ["a"; "b"; "c"; "d"] "e") = 4.
Proof. vm_compute. auto. Qed.

Example test_rolling_direct :
  (Rotation.rollup built).1 = "b" ∧
  (Rotation.rollup (Rotation.activeSa built "b")).1 = "c" ∧
  (Rotation.rollup (Rotation.activeSa built "c")).1 = "a".
Proof. vm_compute. auto. Qed.

(** [TestStaleEnd]: the second [staleSa("")] exhausts the index. *)
Example test_stale_end :
  let p := Rotation.updateSas (NewServiceAccountPool 100) ["a"; "b"] "a" in
  let r1 := Rotation.staleSa p "" [("b", 1)] 0 in
  let r2 := Rotation.staleSa (Rotation.activeSa r1.2 r1.1.2) "" [] 0 in
  r1.1 = (false, "b") ∧ r2.1 = (true, "") ∧ activeIdx r2.2 = -1 ∧
  (Rotation.rollup r2.2).1 = "".
Proof. vm_compute. auto. Qed.

End getFile_witnesses.

(** * Further properties of the rotation index *)

Section index_everywhere.
Import Rotation Index.

(** The two maps after [staleSa], for any target. *)
Lemma staleSa_maps p target it r :
  sas (staleSa p target it r).2 =
    match sas p !! saPool_at p (resolve p target) with
    | Some entry =>
        <[saPool_at p (resolve p target) := mkSaEntry (saPath entry) true]> (sas p)
    | None => sas p
    end ∧
  saPool (staleSa p target it r).2 = delete (resolve p target) (saPool p).
Proof.
  unfold staleSa. fold (resolve p target). cbv zeta.
  destruct (sas p !! saPool_at p (resolve p target)) as [entry|];
    repeat case_match; done.
Qed.

Lemma updateSas_sound p data a : reverse_sound p → reverse_sound (updateSas p data a).
Proof.
  intros Hs.
  destruct (decide (data = [] ∨ a = "")) as [Hno|Hgo].
  { by rewrite updateSas_noop. }
  assert (data ≠ []) as Hd by tauto. assert (a ≠ "") as Ha by tauto.
  assert (∀ s i, (fill 0 data (∅, ∅)).2 !! s = Some i →
            (fill 0 data (∅, ∅)).1 !! i = Some (mkSaEntry s false)) as Hfill.
  { intros s i Hi.
    destruct (fill_pool_range _ _ _ _ _ _ Hi) as [[Hr Hk]|[_ He]].
    - rewrite Z.sub_0_r in Hk.
      replace i with (Z.of_nat (Z.to_nat i)) by lia. by apply fill_sas_nth.
    - by rewrite lookup_empty in He. }
  destruct (decide (a ∈ data)) as [Hin|Hnin].
  - destruct (updateSas_present p data a Hd Ha Hin) as (k & _ & _ & ->).
    intros s i Hi. simpl in *. apply Hfill in Hi. by eexists.
  - rewrite (updateSas_absent p data a Hd Ha Hnin).
    intros s i. simpl. intros Hi.
    destruct (decide (s = a)) as [->|Hne].
    + rewrite lookup_insert_eq in Hi. injection Hi as <-.
      rewrite lookup_insert_eq. by eexists.
    + rewrite lookup_insert_ne in Hi by done.
      pose proof (Hfill _ _ Hi) as Hi'.
      assert (i ≠ Z.of_nat (length data)) as Hlen.
      { intros ->. rewrite fill_sas_out in Hi' by lia. by rewrite lookup_empty in Hi'. }
      rewrite lookup_insert_ne by done. by eexists.
Qed.

Lemma staleSa_sound p target it r :
  reverse_sound p → reverse_sound (staleSa p target it r).2.
Proof.
  intros Hs s i. destruct (staleSa_maps p target it r) as [-> ->].
  intros Hi. apply lookup_delete_Some in Hi as [_ Hi].
  destruct (Hs _ _ Hi) as (e & He & Hp).
  destruct (sas p !! saPool_at p (resolve p target)) as [entry|] eqn:Hold;
    [|by eexists].
  destruct (decide (i = saPool_at p (resolve p target))) as [->|Hne].
  - rewrite lookup_insert_eq. eexists. split; [done|]. simpl. congruence.
  - rewrite lookup_insert_ne by done. by eexists.
Qed.

Lemma revertStaleSa_sound p target it :
  it ≡ₚ map_to_list (sas p) → reverse_sound p →
  reverse_sound (revertStaleSa p target it).
Proof.
  intros Hit Hs. unfold revertStaleSa, findIdxByStr.
  case_bool_decide as Ht; [done|].
  case_bool_decide as Hk; [|done].
  destruct (findIdxByStr_loop_found it target Hk) as (v & Hv & Hp).
  set (k := findIdxByStr_loop it target) in *.
  rewrite Hit in Hv. apply elem_of_map_to_list in Hv. rewrite Hv.
  intros s i. simpl. intros Hi.
  destruct (decide (s = target)) as [->|Hne].
  - rewrite lookup_insert_eq in Hi. injection Hi as <-.
    rewrite lookup_insert_eq. by eexists.
  - rewrite lookup_insert_ne in Hi by done.
    destruct (Hs _ _ Hi) as (e & He & Hpe).
    destruct (decide (i = k)) as [->|Hik].
    + rewrite lookup_insert_eq. eexists. split; [done|]. simpl. congruence.
    + rewrite lookup_insert_ne by done. by eexists.
Qed.

Lemma reachable_sound max p : reachable max p → reverse_sound p.
Proof.
  induction 1 as [|p op _ IH Hvalid].
  - intros s i. simpl. by rewrite lookup_empty.
  - destruct op as [data a|path|target it r|target it|]; simpl in *.
    + by apply updateSas_sound.
    + unfold activeSa. by destruct (saPool p !! path).
    + by apply staleSa_sound.
    + by apply revertStaleSa_sound.
    + unfold rollup. by repeat case_match.
Qed.

(** X1: whatever identifiers the calls were given, in every reachable
    state the entries sit at the indices [0 .. len-1], [activeIdx] is -1 or
    at most [len(sas)], and a key of the reverse mapping points at an entry
    that carries that identifier; so [activeSa] on a key of the reverse
    mapping makes the entry with that identifier the active one. *)
Theorem reachable_index_sound max p :
  reachable max p →
  dense p ∧ -1 ≤ activeIdx p ≤ len_sas p ∧ reverse_sound p ∧
  ∀ s, is_Some (saPool p !! s) →
       saPath (sas_at (activeSa p s) (activeIdx (activeSa p s))) = s ∧
       0 ≤ activeIdx (activeSa p s) < len_sas p.
Proof.
  intros Hr.
  destruct (reachable_shape max p Hr) as [Hd Ha _].
  pose proof (reachable_sound max p Hr) as Hs.
  split; [done|]. split; [done|]. split; [done|].
  intros s [i Hi]. unfold activeSa. rewrite Hi.
  destruct (Hs _ _ Hi) as (e & He & Hp).
  unfold sas_at. simpl. rewrite He. simpl. split; [done|].
  apply Hd. by eexists.
Qed.

Lemma reachable_index_sound_witness :
  reachable 100 Scenario.stale_twice ∧
  dense Scenario.stale_twice ∧ reverse_sound Scenario.stale_twice.
Proof.
  assert (reachable 100 Scenario.stale_twice) as Hr.
  { refine (reach_step 100 _ Scenario.stale_b
              (reachable_known_reachable _ _ stale_once_known) _).
    split; [vm_compute; reflexivity|intros _; cbn [length]; lia]. }
  destruct (reachable_index_sound 100 _ Hr) as (Hd & _ & Hs & _).
  split; [exact Hr|]. split; [exact Hd|exact Hs].
Defined.

End index_everywhere.

Section known_calls.
Import Rotation Index.

(** The two ways out of [staleSa] on a key of the reverse mapping. *)
Lemma staleSa_known_cases p target it r idx :
  wf p → saPool p !! resolve p target = Some idx →
  it ≡ₚ map_to_list (delete (resolve p target) (saPool p)) →
  (it ≠ [] → 0 ≤ r < Z.of_nat (length it)) →
  let res := staleSa p target it r in
  (res.1 = (true, "") ∧ activeIdx res.2 = -1 ∧ saPool res.2 = ∅)
  ∨ (∃ k, res.1 = (false, k) ∧ saPool res.2 !! k = Some (activeIdx res.2) ∧
          sas res.2 !! activeIdx res.2 = Some (mkSaEntry k false)).
Proof.
  intros Hwf Hidx Hit Hr res.
  assert (wf res.2) as Hwf' by (apply staleSa_wf; [done|by eexists]).
  assert (sas p !! idx = Some (mkSaEntry (resolve p target) false)) as He
    by by apply (wf_reverse p Hwf).
  assert ((res.1 = (true, "") ∧ activeIdx res.2 = -1 ∧ saPool res.2 = ∅)
          ∨ (∃ k, saPool res.2 !! k = Some (activeIdx res.2) ∧
                  res.1 = (false, saPath (sas_at res.2 (activeIdx res.2)))))
    as [?|(k & Hk & Hres)]; [|by left|].
  { subst res. clear Hwf'.
    unfold staleSa. fold (resolve p target). cbv zeta.
    unfold saPool_at. rewrite Hidx. simpl. rewrite He. simpl.
    unfold isPoolEmpty. simpl.
    case_bool_decide as Hsz; simpl.
    - left. split; [done|]. split; [done|]. by apply map_size_empty_iff.
    - right. unfold randomPick. simpl.
      rewrite (bool_decide_false (size _ = 0%nat)) by done.
      assert (it ≠ []) as Hne.
      { intros ->. apply Permutation_nil_l in Hit. symmetry in Hit.
        apply map_to_list_empty_iff in Hit. rewrite Hit in Hsz.
        by rewrite map_size_empty in Hsz. }
      destruct (randomPick_loop_in it r (Hr Hne)) as [k Hk].
      set (ret := randomPick_loop it r) in *.
      rewrite Hit in Hk. apply elem_of_map_to_list in Hk.
      assert (ret ≠ -1) as Hret.
      { intros Heq. rewrite Heq in Hk.
        pose proof (wf_stale p _ idx 0 ∅ 0 [] Hwf Hidx) as Hw.
        apply (wf_reverse _ Hw) in Hk. simpl in Hk.
        assert (is_Some (<[idx:=mkSaEntry (resolve p target) true]> (sas p) !! (-1)))
          as Hs by by eexists.
        apply (wf_dense _ Hw) in Hs. lia. }
      rewrite bool_decide_true by done. simpl. by exists k. }
  right. exists k. pose proof Hk as Hk'.
  apply (wf_reverse _ Hwf') in Hk'.
  unfold sas_at in Hres. rewrite Hk' in Hres. simpl in Hres. done.
Qed.

Lemma updateSas_active_fresh p data a :
  active_fresh p → active_fresh (updateSas p data a).
Proof.
  intros Hp.
  destruct (decide (data = [] ∨ a = "")) as [Hno|Hgo].
  { by rewrite updateSas_noop. }
  assert (data ≠ []) as Hd by tauto. assert (a ≠ "") as Ha by tauto.
  right. right. exists a.
  destruct (decide (a ∈ data)) as [Hin|Hnin].
  - destruct (updateSas_present p data a Hd Ha Hin) as (k & Hk & _ & ->).
    simpl. by apply fill_sas_nth.
  - rewrite (updateSas_absent p data a Hd Ha Hnin). simpl.
    apply lookup_insert_eq.
Qed.

Lemma reachable_known_active_fresh max p :
  reachable_known max p → active_fresh p.
Proof.
  induction 1 as [|p op Hreach IH Hvalid Hknown]; [right; by left|].
  pose proof (reachable_known_wf _ _ Hreach) as Hwf.
  destruct op as [data a|path|target it r|target it|]; simpl in *.
  - by apply updateSas_active_fresh.
  - unfold activeSa. destruct (saPool p !! path) as [i|] eqn:Hi; [|done].
    right. right. exists path. simpl. by apply (wf_reverse _ Hwf).
  - destruct Hknown as [idx Hidx]. destruct Hvalid as [Hit Hr].
    destruct (staleSa_known_cases p target it r idx Hwf Hidx Hit Hr)
      as [(_ & Ha & _)|(k & _ & _ & Hk)].
    + by left.
    + right. right. by exists k.
  - unfold revertStaleSa, findIdxByStr.
    case_bool_decide as Ht; [done|].
    case_bool_decide as Hk; [|done].
    destruct (findIdxByStr_loop_found it target Hk) as (v & Hv & Hp).
    set (k := findIdxByStr_loop it target) in *.
    rewrite Hvalid in Hv. apply elem_of_map_to_list in Hv. rewrite Hv.
    destruct IH as [Hm|[He|(s & Hs)]].
    + by left.
    + rewrite He in Hv. by rewrite lookup_empty in Hv.
    + right. right. simpl.
      destruct (decide (activeIdx p = k)) as [Heq|Hne].
      * rewrite Heq, lookup_insert_eq. by eexists.
      * rewrite lookup_insert_ne by done. by exists s.
  - unfold rollup. by repeat case_match.
Qed.

Lemma wf_empty_iff_all_stale p :
  wf p → (isPoolEmpty p = true ↔ all_stale p).
Proof.
  intros Hwf. unfold isPoolEmpty. rewrite bool_decide_eq_true. split.
  - by apply empty_pool_all_stale.
  - intros Hall. apply map_size_empty_iff, map_empty. intros s.
    destruct (saPool p !! s) as [i|] eqn:Hi; [|done].
    apply (wf_reverse _ Hwf) in Hi. apply Hall in Hi. done.
Qed.

(** X2: over rebuilds from lists without repetition and [staleSa] calls on
    keys of the reverse mapping, with any [activeSa], [revertStaleSa] and
    [rollup] calls in between, the reverse mapping holds exactly the
    entries that are not stale, no identifier sits at two indices,
    [isPoolEmpty] is true exactly when every entry is stale, and
    [activeIdx] is -1 or points at an entry that is not stale (or there
    are no entries yet). *)
Theorem known_calls_keep_index max p :
  reachable_known max p →
  reverse_exact p ∧ distinct_paths p ∧
  (isPoolEmpty p = true ↔ all_stale p) ∧
  active_fresh p.
Proof.
  intros Hr. pose proof (reachable_known_wf _ _ Hr) as Hwf.
  split; [apply (wf_reverse _ Hwf)|]. split; [apply (wf_distinct _ Hwf)|].
  split; [by apply wf_empty_iff_all_stale|].
  by eapply reachable_known_active_fresh.
Qed.

Lemma known_calls_keep_index_witness :
  reachable_known 100 Scenario.stale_once ∧
  reverse_exact Scenario.stale_once ∧ active_fresh Scenario.stale_once.
Proof.
  destruct (known_calls_keep_index 100 _ stale_once_known) as (Hr & _ & _ & Ha).
  split; [exact stale_once_known|]. split; [exact Hr|exact Ha].
Defined.

End known_calls.

Section picks_and_rolls.
Import Rotation Index.

Lemma randomPick_loop_nth it : ∀ (k : nat) s v,
  it !! k = Some (s, v) → randomPick_loop it (Z.of_nat k) = v.
Proof.
  induction it as [|[s' v'] it IH]; intros k s v Hk; [done|].
  destruct k as [|k]; simpl in Hk; cbn [randomPick_loop].
  - rewrite bool_decide_true by done. by injection Hk as _ ->.
  - rewrite bool_decide_false by lia.
    replace (Z.of_nat (S k) - 1) with (Z.of_nat k) by lia.
    by eapply IH.
Qed.

(** X3: fed a walk of the reverse mapping and a draw in range,
    [randomPick] returns -1 exactly when the reverse mapping is empty (in a
    dense index whose reverse mapping points at entries); otherwise it
    returns the index some key maps to, within [0, len(sas)), and in an
    index that satisfies its invariant that entry is not stale.  Every key
    of the reverse mapping is returned by some walk and draw. *)
Theorem randomPick_draws_fresh p it r :
  it ≡ₚ map_to_list (saPool p) →
  (it ≠ [] → 0 ≤ r < Z.of_nat (length it)) →
  dense p → reverse_sound p →
  (randomPick p it r = -1 ↔ saPool p = ∅) ∧
  (saPool p ≠ ∅ →
     (∃ s, saPool p !! s = Some (randomPick p it r)) ∧
     0 ≤ randomPick p it r < len_sas p) ∧
  (wf p → saPool p ≠ ∅ →
     ∃ s, sas p !! randomPick p it r = Some (mkSaEntry s false)) ∧
  (∀ s i, saPool p !! s = Some i →
     ∃ it' (r' : Z), it' ≡ₚ map_to_list (saPool p) ∧
       0 ≤ r' < Z.of_nat (length it') ∧ randomPick p it' r' = i).
Proof.
  intros Hit Hr Hd Hs.
  assert (saPool p ≠ ∅ →
            ∃ s, saPool p !! s = Some (randomPick p it r)) as Hsome.
  { intros Hne. unfold randomPick. cbv zeta.
    rewrite bool_decide_false by by rewrite map_size_empty_iff.
    assert (it ≠ []) as Hne'.
    { intros ->. apply Permutation_nil_l in Hit. symmetry in Hit.
      by apply map_to_list_empty_iff in Hit. }
    destruct (randomPick_loop_in it r (Hr Hne')) as [k Hk].
    set (ret := randomPick_loop it r) in *.
    rewrite Hit in Hk. apply elem_of_map_to_list in Hk. by exists k. }
  assert (saPool p ≠ ∅ → 0 ≤ randomPick p it r < len_sas p) as Hrange.
  { intros Hne. destruct (Hsome Hne) as [s Hk].
    destruct (Hs _ _ Hk) as (e & He & _). apply Hd. by eexists. }
  split; [|split; [|split]].
  - split.
    + intros Hm. destruct (decide (saPool p = ∅)) as [|Hne]; [done|].
      apply Hrange in Hne. lia.
    + intros He. unfold randomPick. cbv zeta.
      by rewrite bool_decide_true by by rewrite map_size_empty_iff.
  - intros Hne. split; [by apply Hsome|by apply Hrange].
  - intros Hwf Hne. destruct (Hsome Hne) as [s Hk].
    exists s. by apply (wf_reverse _ Hwf).
  - intros s i Hi.
    assert ((s, i) ∈ map_to_list (saPool p)) as Hin by by apply elem_of_map_to_list.
    apply list_elem_of_lookup in Hin as [k Hk].
    exists (map_to_list (saPool p)), (Z.of_nat k).
    split; [done|]. apply lookup_lt_Some in Hk as Hlt. split; [lia|].
    unfold randomPick. cbv zeta.
    rewrite bool_decide_false.
    + by eapply randomPick_loop_nth.
    + rewrite map_size_empty_iff. intros He. rewrite He in Hi.
      by rewrite lookup_empty in Hi.
Qed.

Lemma randomPick_draws_fresh_witness :
  dense Scenario.built ∧ reverse_sound Scenario.built ∧
  (randomPick Scenario.built [("c", 2); ("a", 0); ("b", 1)] 2 = -1
   ↔ saPool Scenario.built = ∅).
Proof.
  assert ([("c", 2); ("a", 0); ("b", 1)] ≡ₚ map_to_list (saPool Scenario.built)) as Hit.
  { vm_compute. reflexivity. }
  assert ([("c", 2); ("a", 0); ("b", 1)] ≠ [] →
          0 ≤ 2 < Z.of_nat (length [("c", 2); ("a", 0); ("b", 1)])) as Hr.
  { intros _. cbn [length]. lia. }
  assert (dense Scenario.built) as Hd by exact (wf_dense _ built_wf).
  assert (reverse_sound Scenario.built) as Hs.
  { intros s i Hi. apply (wf_reverse _ built_wf) in Hi. by eexists. }
  split; [exact Hd|]. split; [exact Hs|].
  exact (proj1 (randomPick_draws_fresh Scenario.built _ 2 Hit Hr Hd Hs)).
Defined.

End picks_and_rolls.

Section activation_and_rolling.
Import Rotation Index.

(** X4: [activeSa] never touches the entries or the reverse mapping; in
    an index that satisfies its invariant it makes the entry of a
    non-stale identifier the active one, and ignores an identifier that is
    stale or not loaded. *)
Theorem activeSa_only_fresh p s :
  wf p →
  sas (activeSa p s) = sas p ∧ saPool (activeSa p s) = saPool p ∧
  ((∃ i, sas p !! i = Some (mkSaEntry s false)) →
     sas (activeSa p s) !! activeIdx (activeSa p s) = Some (mkSaEntry s false)) ∧
  ((∀ i, sas p !! i ≠ Some (mkSaEntry s false)) → activeSa p s = p).
Proof.
  intros Hwf. unfold activeSa.
  destruct (saPool p !! s) as [i|] eqn:Hi.
  - apply (wf_reverse _ Hwf) in Hi.
    split; [done|]. split; [done|]. split; [done|].
    intros Hno. by destruct (Hno i).
  - split; [done|]. split; [done|]. split; [|done].
    intros [i Hsi]. apply (wf_reverse _ Hwf) in Hsi. congruence.
Qed.

Lemma activeSa_only_fresh_witness :
  wf Scenario.stale_once ∧
  activeSa Scenario.stale_once "b" = Scenario.stale_once.
Proof.
  assert (wf Scenario.stale_once) as Hwf
    by exact (reachable_known_wf _ _ stale_once_known).
  split; [exact Hwf|].
  destruct (activeSa_only_fresh Scenario.stale_once "b" Hwf) as (_ & _ & _ & Hno).
  apply Hno. intros i Hi.
  apply (wf_reverse _ Hwf) in Hi. vm_compute in Hi. discriminate.
Defined.

Lemma scan_first p fuel i :
  isStale (sas_at p i) = false →
  scan p (S fuel) i = Some (saPath (sas_at p i)).
Proof. intros Hf. cbn [scan]. by rewrite Hf. Qed.

Lemma none_stale_at p j :
  dense p → none_stale p → 0 ≤ j < len_sas p → isStale (sas_at p j) = false.
Proof.
  intros Hd Hn Hj. apply (Hn j). by apply dense_sas_at.
Qed.

(** X5: rolling without stale entries goes round in order.  In an index
    that satisfies its invariant, has at least two entries, none stale, and
    whose [activeIdx] is one of them, [rollup] returns the identifier at
    index [(activeIdx + 1) mod len], and [activeSa] on that result moves
    [activeIdx] there. *)
Theorem rolling_advances p :
  wf p → none_stale p → 0 ≤ activeIdx p < len_sas p → 2 ≤ len_sas p →
  (rollup p).1 = saPath (sas_at p ((activeIdx p + 1) `mod` len_sas p)) ∧
  activeIdx (activeSa p (rollup p).1) = (activeIdx p + 1) `mod` len_sas p.
Proof.
  intros Hwf Hn Ha Hlen.
  pose proof (wf_dense _ Hwf) as Hd.
  set (next := (activeIdx p + 1) `mod` len_sas p).
  assert (0 ≤ next < len_sas p) as Hnext by (apply Z.mod_pos_bound; lia).
  assert ((rollup p).1 = saPath (sas_at p next)) as Hroll.
  { unfold rollup, scan_range. cbv zeta.
    destruct (decide (activeIdx p + 1 < len_sas p)) as [Hlt|Hge].
    - assert (next = activeIdx p + 1) as -> by (apply Z.mod_small; lia).
      destruct (Z.to_nat (len_sas p - (activeIdx p + 1))) as [|f] eqn:Hf; [lia|].
      rewrite scan_first by (apply none_stale_at; [done..|lia]). done.
    - assert (activeIdx p + 1 = len_sas p) as Heq by lia.
      assert (next = 0) as -> by (unfold next; rewrite Heq; apply Z_mod_same_full).
      rewrite Heq, Z.sub_diag. cbn [Z.to_nat scan].
      destruct (Z.to_nat (activeIdx p - 0)) as [|f] eqn:Hf; [lia|].
      rewrite scan_first by (apply none_stale_at; [done..|lia]). done. }
  split; [done|]. rewrite Hroll.
  pose proof (dense_sas_at p next Hd Hnext) as He.
  pose proof (wf_fresh_entry p next _ Hwf He (none_stale_at p next Hd Hn Hnext)) as Hk.
  unfold activeSa. by rewrite Hk.
Qed.

Lemma rolling_advances_witness :
  wf Scenario.built ∧ none_stale Scenario.built ∧
  activeIdx (activeSa Scenario.built (rollup Scenario.built).1)
    = (activeIdx Scenario.built + 1) `mod` len_sas Scenario.built.
Proof.
  assert (none_stale Scenario.built) as Hn.
  { intros i e He.
    destruct (isStale e) eqn:Hs; [|done].
    assert (0 ≤ i < len_sas Scenario.built) as Hi
      by (apply (wf_dense _ built_wf); by eexists).
    assert (len_sas Scenario.built = 3) as Hl by (vm_compute; reflexivity).
    assert (i = 0 ∨ i = 1 ∨ i = 2) as [->|[->| ->]] by lia;
      vm_compute in He; injection He as <-; discriminate. }
  assert (0 ≤ activeIdx Scenario.built < len_sas Scenario.built) as Ha.
  { assert (activeIdx Scenario.built = 0) as -> by (vm_compute; reflexivity).
    assert (len_sas Scenario.built = 3) as -> by (vm_compute; reflexivity). lia. }
  assert (2 ≤ len_sas Scenario.built) as Hl.
  { assert (len_sas Scenario.built = 3) as -> by (vm_compute; reflexivity). lia. }
  split; [exact built_wf|]. split; [exact Hn|].
  exact (proj2 (rolling_advances Scenario.built built_wf Hn Ha Hl)).
Defined.

(** X6: when the active entry is the only one that is not stale,
    [rollup] has nothing to roll to and returns the empty string: it never
    returns the active entry itself.  A pool of one entry is the plainest
    case. *)
Theorem rollup_skips_active p :
  dense p → 0 ≤ activeIdx p < len_sas p →
  (∀ i e, sas p !! i = Some e → i ≠ activeIdx p → isStale e = true) →
  (rollup p).1 = "".
Proof.
  intros Hd Ha Hothers.
  assert (∀ j, 0 ≤ j < len_sas p → j ≠ activeIdx p →
            isStale (sas_at p j) = true) as Hst.
  { intros j Hj Hne. apply (Hothers j); [|done]. by apply dense_sas_at. }
  unfold rollup, scan_range. cbv zeta.
  pose proof (scan_result p (Z.to_nat (len_sas p - (activeIdx p + 1))) (activeIdx p + 1)) as H1.
  destruct (scan p (Z.to_nat (len_sas p - (activeIdx p + 1))) (activeIdx p + 1)) as [s|].
  { destruct H1 as (j & Hj & Hf & _). rewrite Hst in Hf by lia. done. }
  pose proof (scan_result p (Z.to_nat (activeIdx p - 0)) 0) as H2.
  destruct (scan p (Z.to_nat (activeIdx p - 0)) 0) as [s|]; [|done].
  destruct H2 as (j & Hj & Hf & _). rewrite Hst in Hf by lia. done.
Qed.

Lemma rollup_skips_active_witness :
  let p := updateSas (NewServiceAccountPool 100) ["only"] "only" in
  dense p ∧ (rollup p).1 = "".
Proof.
  intros p.
  assert (wf p) as Hwf.
  { apply updateSas_wf; [apply wf_new|]. apply (bool_decide_unpack _). vm_compute. exact I. }
  assert (activeIdx p = 0) as Ha by (vm_compute; reflexivity).
  assert (len_sas p = 1) as Hl by (vm_compute; reflexivity).
  split; [exact (wf_dense _ Hwf)|].
  apply rollup_skips_active; [exact (wf_dense _ Hwf)|lia|].
  intros i e He Hne.
  assert (0 ≤ i < len_sas p) as Hi by (apply (wf_dense _ Hwf); by eexists).
  lia.
Defined.

End activation_and_rolling.

Section stale_and_revert.
Import Rotation Index.

(** X7: in an index that satisfies its invariant, [staleSa] on a key of
    the reverse mapping keeps the number of entries, takes exactly that key
    out of the reverse mapping, changes no other entry, and when it does
    not report exhaustion the identifier it returns is another one than
    the target. *)
Theorem staleSa_hands_out_another p target it r :
  wf p → is_Some (saPool p !! resolve p target) →
  it ≡ₚ map_to_list (delete (resolve p target) (saPool p)) →
  (it ≠ [] → 0 ≤ r < Z.of_nat (length it)) →
  let res := staleSa p target it r in
  len_sas res.2 = len_sas p ∧
  S (size (saPool res.2)) = size (saPool p) ∧
  saPool res.2 !! resolve p target = None ∧
  (∀ s, s ≠ resolve p target → saPool res.2 !! s = saPool p !! s) ∧
  (∀ i, i ≠ saPool_at p (resolve p target) → sas res.2 !! i = sas p !! i) ∧
  (res.1.1 = false → res.1.2 ≠ resolve p target).
Proof.
  intros Hwf [idx Hidx] Hit Hr res.
  destruct (staleSa_known_maps p target it r idx Hwf Hidx) as [Hsas Hpool].
  fold res in Hsas, Hpool.
  assert (sas p !! idx = Some (mkSaEntry (resolve p target) false)) as He
    by by apply (wf_reverse p Hwf).
  split; [|split; [|split; [|split; [|split]]]].
  - unfold len_sas. rewrite Hsas. by rewrite map_size_insert_Some by by eexists.
  - rewrite Hpool, map_size_delete_Some by by eexists.
    assert (size (saPool p) ≠ 0%nat) by (apply map_size_ne_0_lookup_2 with (resolve p target); by eexists).
    lia.
  - rewrite Hpool. apply lookup_delete_eq.
  - intros s Hs. rewrite Hpool. by apply lookup_delete_ne.
  - intros i Hi. rewrite Hsas. apply lookup_insert_ne.
    unfold saPool_at in Hi. rewrite Hidx in Hi. simpl in Hi. done.
  - intros Hex.
    destruct (staleSa_known_cases p target it r idx Hwf Hidx Hit Hr)
      as [(Hres & _)|(k & Hres & Hk & _)]; fold res in Hres.
    + rewrite Hres in Hex. done.
    + fold res in Hk. rewrite Hres. simpl. intros ->.
      rewrite Hpool, lookup_delete_eq in Hk. done.
Qed.

Lemma staleSa_hands_out_another_witness :
  wf Scenario.built ∧
  (Rotation.staleSa Scenario.built "b" [("c", 2); ("a", 0)] 1).1.2 ≠ "b".
Proof.
  assert (is_Some (saPool Scenario.built !! resolve Scenario.built "b")) as Hk
    by (vm_compute; by eexists).
  assert ([("c", 2); ("a", 0)] ≡ₚ
          map_to_list (delete (resolve Scenario.built "b") (saPool Scenario.built)))
    as Hit by (vm_compute; reflexivity).
  assert ([("c", 2); ("a", 0)] ≠ [] → 0 ≤ 1 < Z.of_nat (length [("c", 2); ("a", 0)]))
    as Hr by (intros _; cbn [length]; lia).
  destruct (staleSa_hands_out_another Scenario.built "b" _ 1 built_wf Hk Hit Hr)
    as (_ & _ & _ & _ & _ & Hother).
  split; [exact built_wf|].
  assert (resolve Scenario.built "b" = "b") as Hres by reflexivity.
  rewrite Hres in Hother. apply Hother. vm_compute. reflexivity.
Defined.

(** X8: [staleSa] on an identifier that is not a key of the reverse
    mapping (never loaded, or already stale) leaves the reverse mapping as
    it was and marks the entry at index 0 stale, if there is one; when that
    entry was not stale and the reverse mapping was exact, it is exact no
    more. *)
Theorem staleSa_absent_target_marks_first p target it r :
  saPool p !! resolve p target = None →
  let res := staleSa p target it r in
  saPool res.2 = saPool p ∧
  sas res.2 =
    match sas p !! 0 with
    | Some entry => <[0 := mkSaEntry (saPath entry) true]> (sas p)
    | None => sas p
    end ∧
  (∀ s, sas p !! 0 = Some (mkSaEntry s false) →
        reverse_exact p → ¬ reverse_exact res.2).
Proof.
  intros Hnone res.
  destruct (staleSa_maps p target it r) as [Hsas Hpool]. fold res in Hsas, Hpool.
  assert (saPool_at p (resolve p target) = 0) as H0.
  { unfold saPool_at. by rewrite Hnone. }
  rewrite H0 in Hsas. rewrite delete_id in Hpool by done.
  split; [done|]. split; [done|].
  intros s Hs Hex Hex'.
  assert (saPool res.2 !! s = Some 0) as Hin by (rewrite Hpool; by apply Hex).
  apply Hex' in Hin. rewrite Hsas, Hs, lookup_insert_eq in Hin. done.
Qed.

Lemma staleSa_absent_target_marks_first_witness :
  saPool Scenario.stale_once !! resolve Scenario.stale_once "b" = None ∧
  saPool (staleSa Scenario.stale_once "b" [("c", 2); ("a", 0)] 1).2
    = saPool Scenario.stale_once.
Proof.
  assert (saPool Scenario.stale_once !! resolve Scenario.stale_once "b" = None) as Hn
    by (vm_compute; reflexivity).
  split; [exact Hn|].
  exact (proj1 (staleSa_absent_target_marks_first Scenario.stale_once "b" _ 1 Hn)).
Defined.

Lemma findIdxByStr_loop_none it str :
  (∀ k v, (k, v) ∈ it → saPath v ≠ str) → findIdxByStr_loop it str = -1.
Proof.
  induction it as [|[k v] it IH]; intros Hno; [done|]. simpl.
  rewrite decide_False.
  - apply IH. intros k' v' Hin. apply (Hno k' v'). apply elem_of_cons. by right.
  - apply (Hno k v). apply elem_of_cons. by left.
Qed.

Lemma findIdxByStr_loop_first it str :
  (∃ k v, (k, v) ∈ it ∧ saPath v = str) →
  ∃ v', (findIdxByStr_loop it str, v') ∈ it ∧ saPath v' = str.
Proof.
  induction it as [|[k' v'] it IH]; intros (k & v & Hin & Hp).
  - by apply elem_of_nil in Hin.
  - simpl. destruct (decide (saPath v' = str)) as [Heq|Hne].
    + exists v'. split; [apply elem_of_cons; by left|done].
    + apply elem_of_cons in Hin as [[= -> ->]|Hin]; [done|].
      destruct IH as (w & Hw & Hpw); [by exists k, v|].
      exists w. split; [apply elem_of_cons; by right|done].
Qed.

(** In a walk of an index without repeated identifiers the search finds
    the one index of the identifier, whatever the order of the walk. *)
Lemma findIdxByStr_unique p it str k v :
  distinct_paths p → it ≡ₚ map_to_list (sas p) →
  sas p !! k = Some v → saPath v = str →
  findIdxByStr_loop it str = k.
Proof.
  intros Hdist Hit Hk Hv.
  destruct (findIdxByStr_loop_first it str) as (w & Hw & Hp).
  { exists k, v. split; [|done]. rewrite Hit. by apply elem_of_map_to_list. }
  set (j := findIdxByStr_loop it str) in *.
  rewrite Hit in Hw. apply elem_of_map_to_list in Hw.
  eapply Hdist; [done..|congruence].
Qed.

(** X9: [revertStaleSa] undoes [staleSa].  In an index that satisfies its
    invariant, staling a key of the reverse mapping and then reverting the
    same identifier gives back the entries and the reverse mapping as they
    were; [activeIdx] stays where [staleSa] put it. *)
Theorem revert_undoes_stale p target it r it' :
  wf p → is_Some (saPool p !! resolve p target) → resolve p target ≠ "" →
  it' ≡ₚ map_to_list (sas (staleSa p target it r).2) →
  let p1 := (staleSa p target it r).2 in
  let p2 := revertStaleSa p1 (resolve p target) it' in
  sas p2 = sas p ∧ saPool p2 = saPool p ∧ activeIdx p2 = activeIdx p1.
Proof.
  intros Hwf [idx Hidx] Hne Hit' p1 p2.
  destruct (staleSa_known_maps p target it r idx Hwf Hidx) as [Hsas Hpool].
  fold p1 in Hsas, Hpool, Hit'.
  assert (sas p !! idx = Some (mkSaEntry (resolve p target) false)) as He
    by by apply (wf_reverse p Hwf).
  assert (wf p1) as Hwf1 by (apply staleSa_wf; [done|by eexists]).
  assert (sas p1 !! idx = Some (mkSaEntry (resolve p target) true)) as He1
    by (rewrite Hsas; apply lookup_insert_eq).
  assert (idx ≠ -1) as Hidx1.
  { intros ->. assert (is_Some (sas p !! (-1))) as Hs by by eexists.
    apply (wf_dense _ Hwf) in Hs. lia. }
  pose proof (findIdxByStr_unique p1 it' (resolve p target) idx _
                (wf_distinct _ Hwf1) Hit' He1 eq_refl) as Hfind.
  subst p2. unfold revertStaleSa, findIdxByStr.
  rewrite bool_decide_false by done. rewrite Hfind.
  rewrite bool_decide_true by done. rewrite He1. simpl.
  split; [|split; [|done]].
  - rewrite Hsas, insert_insert_eq. by apply insert_id.
  - rewrite Hpool, insert_delete_eq. by apply insert_id.
Qed.

Lemma revert_undoes_stale_witness :
  wf Scenario.built ∧
  sas (revertStaleSa Scenario.stale_once "b"
         [(2, mkSaEntry "c" false); (1, mkSaEntry "b" true); (0, mkSaEntry "a" false)])
    = sas Scenario.built.
Proof.
  assert (is_Some (saPool Scenario.built !! resolve Scenario.built "b")) as Hk
    by (vm_compute; by eexists).
  assert (resolve Scenario.built "b" ≠ "") as Hne by done.
  assert ([(2, mkSaEntry "c" false); (1, mkSaEntry "b" true); (0, mkSaEntry "a" false)]
          ≡ₚ map_to_list (sas (staleSa Scenario.built "b" [("c", 2); ("a", 0)] 1).2))
    as Hit by (vm_compute; reflexivity).
  split; [exact built_wf|].
  exact (proj1 (revert_undoes_stale Scenario.built "b" [("c", 2); ("a", 0)] 1 _
                  built_wf Hk Hne Hit)).
Defined.

(** X10: [revertStaleSa] with the empty string, or with an identifier no
    entry carries, returns the pool as it was; and in an index without
    repeated identifiers its result does not depend on the order in which
    the entries are walked. *)
Theorem revertStaleSa_unknown_and_order p target it it' :
  it ≡ₚ map_to_list (sas p) → it' ≡ₚ map_to_list (sas p) →
  (target = "" → revertStaleSa p target it = p) ∧
  ((∀ i e, sas p !! i = Some e → saPath e ≠ target) →
     revertStaleSa p target it = p) ∧
  (distinct_paths p →
     revertStaleSa p target it = revertStaleSa p target it').
Proof.
  intros Hit Hit'. split; [|split].
  - intros ->. done.
  - intros Hno. unfold revertStaleSa, findIdxByStr.
    case_bool_decide; [done|].
    rewrite findIdxByStr_loop_none; [done|].
    intros k v Hin. rewrite Hit in Hin. apply elem_of_map_to_list in Hin.
    by eapply Hno.
  - intros Hdist.
    assert (findIdxByStr_loop it target = findIdxByStr_loop it' target) as Heq.
    { destruct (decide (findIdxByStr_loop it target = -1)) as [Hm|Hf].
      - rewrite Hm. symmetry.
        destruct (decide (findIdxByStr_loop it' target = -1)) as [|Hf']; [done|].
        destruct (findIdxByStr_loop_found it' target Hf') as (w & Hw & Hp).
        set (j := findIdxByStr_loop it' target) in *.
        rewrite Hit' in Hw. apply elem_of_map_to_list in Hw.
        rewrite <- Hm. symmetry.
        eapply (findIdxByStr_unique p it target j w); done.
      - destruct (findIdxByStr_loop_found it target Hf) as (w & Hw & Hp).
        set (j := findIdxByStr_loop it target) in *.
        rewrite Hit in Hw. apply elem_of_map_to_list in Hw.
        symmetry. eapply (findIdxByStr_unique p it' target j w); done. }
    unfold revertStaleSa, findIdxByStr. by rewrite Heq.
Qed.

Lemma revertStaleSa_unknown_and_order_witness :
  revertStaleSa Scenario.built "f"
    [(2, mkSaEntry "c" false); (1, mkSaEntry "b" false); (0, mkSaEntry "a" false)]
  = Scenario.built.
Proof.
  assert ([(2, mkSaEntry "c" false); (1, mkSaEntry "b" false); (0, mkSaEntry "a" false)]
          ≡ₚ map_to_list (sas Scenario.built)) as Hit by (vm_compute; reflexivity).
  destruct (revertStaleSa_unknown_and_order Scenario.built "f" _ _ Hit Hit)
    as (_ & Hno & _).
  apply Hno. intros i e He Hp.
  assert (0 ≤ i < len_sas Scenario.built) as Hi
    by (apply (wf_dense _ built_wf); by eexists).
  assert (len_sas Scenario.built = 3) as Hl by (vm_compute; reflexivity).
  assert (i = 0 ∨ i = 1 ∨ i = 2) as [->|[->| ->]] by lia;
    vm_compute in He; injection He as <-; discriminate.
Defined.

(** X11: a rebuild depends only on its arguments; repeating it with the
    same list and active identifier changes nothing more, and it leaves the
    files, the capacity and the cache alone. *)
Theorem updateSas_idempotent p data a :
  updateSas (updateSas p data a) data a = updateSas p data a ∧
  Files (updateSas p data a) = Files p ∧
  Max (updateSas p data a) = Max p ∧
  svcs (updateSas p data a) = svcs p ∧
  ∀ q, data ≠ [] → a ≠ "" →
       sas (updateSas q data a) = sas (updateSas p data a) ∧
       saPool (updateSas q data a) = saPool (updateSas p data a) ∧
       activeIdx (updateSas q data a) = activeIdx (updateSas p data a).
Proof.
  destruct (decide (data = [] ∨ a = "")) as [Hno|Hgo].
  { rewrite !(updateSas_noop p data a Hno).
    split; [done|]. split; [done|]. split; [done|]. split; [done|].
    intros q Hd Ha. tauto. }
  assert (data ≠ []) as Hd by tauto. assert (a ≠ "") as Ha by tauto.
  destruct (decide (a ∈ data)) as [Hin|Hnin].
  - destruct (updateSas_present p data a Hd Ha Hin) as (k & Hk & Hlast & Hp).
    assert (∀ q, ∃ k', data !! k' = Some a ∧
              (∀ k'' : nat, (k' < k'')%nat → data !! k'' ≠ Some a) ∧
              updateSas q data a =
                mkPool (fill 0 data (∅, ∅)).1 (Z.of_nat k') (fill 0 data (∅, ∅)).2
                       (Files q) (Max q) (svcs q)) as Hall
      by (intros q; by apply updateSas_present).
    assert (∀ k', data !! k' = Some a →
              (∀ k'' : nat, (k' < k'')%nat → data !! k'' ≠ Some a) → k' = k) as Huniq.
    { intros k' Hk' Hlast'.
      destruct (Nat.lt_trichotomy k' k) as [Hlt|[Heq|Hgt]]; [|done|].
      - by apply Hlast' in Hlt.
      - by apply Hlast in Hgt. }
    rewrite Hp. split; [|split; [done|split; [done|split; [done|]]]].
    + destruct (Hall (mkPool (fill 0 data (∅, ∅)).1 (Z.of_nat k)
                  (fill 0 data (∅, ∅)).2 (Files p) (Max p) (svcs p)))
        as (k' & Hk' & Hlast' & ->).
      by rewrite (Huniq k' Hk' Hlast').
    + intros q _ _. destruct (Hall q) as (k' & Hk' & Hlast' & ->).
      by rewrite (Huniq k' Hk' Hlast').
  - rewrite !(updateSas_absent _ data a Hd Ha Hnin). simpl.
    split; [done|]. split; [done|]. split; [done|]. split; [done|].
    intros q _ _. by rewrite (updateSas_absent q data a Hd Ha Hnin).
Qed.

End stale_and_revert.

(** * Further properties of the cache *)

Section cache_more.
Import Cache Runs.

(** X12: [AddService] panics exactly when [Max] is negative.  Otherwise
    the cache afterwards is the offered pair followed by the old pairs, cut
    to the first [Max]: with [Max = 0] it stays empty, with [Max >= 1] the
    offered pair is at the front and what was dropped came from the back. *)
Theorem AddService_keeps_newest p c s :
  (AddService p c s = Panicked ↔ Max p < 0) ∧
  (0 ≤ Max p →
     ∃ p', AddService p c s = Done p' ∧
       svcs p' = take (Z.to_nat (Max p)) (mkInfo s c :: svcs p) ∧
       (Max p = 0 → svcs p' = []) ∧
       (1 ≤ Max p → svcs p' !! 0%nat = Some (mkInfo s c) ∧
                    ∃ dropped, mkInfo s c :: svcs p = svcs p' ++ dropped) ∧
       sas p' = sas p ∧ saPool p' = saPool p ∧ activeIdx p' = activeIdx p ∧
       Files p' = Files p ∧ Max p' = Max p).
Proof.
  unfold AddService. cbv zeta. split.
  - destruct (Z.ltb_spec (Max p) (Z.of_nat (length (mkInfo s c :: svcs p)))) as [Hlt|Hge].
    + destruct (Z.ltb_spec (Max p) 0) as [Hneg|Hpos]; [done|].
      split; [done|lia].
    + simpl in Hge. split; [done|lia].
  - intros Hmax.
    destruct (Z.ltb_spec (Max p) (Z.of_nat (length (mkInfo s c :: svcs p)))) as [Hlt|Hge].
    + destruct (Z.ltb_spec (Max p) 0) as [Hneg|Hpos]; [lia|].
      eexists. split; [done|]. simpl svcs.
      split; [done|]. split; [by intros ->|]. split; [|done].
      intros H1. destruct (Z.to_nat (Max p)) as [|n] eqn:Hn; [lia|].
      split; [done|]. exists (drop (S n) (mkInfo s c :: svcs p)).
      by rewrite take_drop.
    + eexists. split; [done|]. simpl svcs.
      split; [by rewrite take_ge by lia|]. split; [simpl in Hge; lia|].
      split; [|done]. intros _. split; [done|]. exists []. by rewrite app_nil_r.
Qed.

Lemma AddService_keeps_newest_witness :
  ∃ p', AddService (NewServiceAccountPool 2) (Some 11%nat) (Some 1%nat) = Done p' ∧
        svcs p' !! 0%nat = Some (mkInfo (Some 1%nat) (Some 11%nat)).
Proof.
  destruct (proj2 (AddService_keeps_newest (NewServiceAccountPool 2)
                     (Some 11%nat) (Some 1%nat))) as (p' & Hrun & _ & _ & Hfront & _).
  { simpl. lia. }
  exists p'. split; [exact Hrun|]. apply Hfront. simpl. lia.
Defined.

Lemma services_step k p :
  services (S k) p =
    ((GetService p).1 :: (services k (GetService p).2).1,
     (services k (GetService p).2).2).
Proof. reflexivity. Qed.

Lemma rotate_one_more {A} (l : list A) (k : nat) :
  l ≠ [] →
  match rotate k l with [] => [] | x :: t => t ++ [x] end = rotate (S k) l.
Proof.
  intros Hne. unfold rotate.
  assert (length l ≠ 0)%nat as Hlen by (by destruct l).
  pose proof (Nat.mod_upper_bound k (length l) Hlen) as Hm.
  set (m := (k `mod` length l)%nat) in *.
  destruct (lookup_lt_is_Some_2 l m Hm) as [x Hx].
  rewrite (drop_S l x m Hx).
  destruct (decide (S m = length l)) as [Hlast|Hmore].
  - assert ((S k `mod` length l)%nat = 0%nat) as ->.
    { replace (S k) with (1 + k)%nat by lia.
      rewrite <- Nat.Div0.add_mod_idemp_r. fold m.
      replace (1 + m)%nat with (length l) by lia. apply Nat.Div0.mod_same. }
    rewrite drop_ge by lia. simpl. rewrite drop_0, app_nil_r.
    rewrite <- (take_S_r l m x Hx). by rewrite take_ge by lia.
  - assert ((S k `mod` length l)%nat = S m) as ->.
    { replace (S k) with (1 + k)%nat by lia.
      rewrite <- Nat.Div0.add_mod_idemp_r. fold m.
      apply Nat.mod_small. lia. }
    simpl. rewrite <- app_assoc. f_equal. by rewrite (take_S_r l m x Hx).
Qed.

(** X13: [k] calls of [GetService] on a cache that is not empty rotate it
    by [k]: none fails, call number [i] hands out the service of the pair
    at position [i mod len], the cache afterwards is the old one rotated by
    [k], and after [len] calls it is the old one again. *)
Theorem services_round_robin k : ∀ p,
  svcs p ≠ [] →
  svcs (services k p).2 = rotate k (svcs p) ∧
  length (services k p).1 = k ∧
  (∀ i, (i < k)%nat →
     ∃ x, svcs p !! (i `mod` length (svcs p))%nat = Some x ∧
          (services k p).1 !! i = Some (Service x, None)) ∧
  (k = length (svcs p) → svcs (services k p).2 = svcs p).
Proof.
  assert (∀ k p, svcs p ≠ [] → svcs (services k p).2 = rotate k (svcs p)) as Hrot.
  { clear k. intros k. induction k as [|k IH]; intros p Hne.
    - simpl. unfold rotate. rewrite Nat.Div0.mod_0_l. simpl. by rewrite app_nil_r.
    - rewrite <- rotate_one_more by done.
      assert (∀ j q, svcs q ≠ [] →
                svcs (services (S j) q).2 =
                match svcs (services j q).2 with [] => [] | x :: t => t ++ [x] end)
        as Hlast.
      { clear. intros j. induction j as [|j IHj]; intros q Hq.
        - simpl. apply GetService_svcs.
        - rewrite services_step. cbn [snd].
          rewrite IHj; [reflexivity|].
          rewrite GetService_svcs. destruct (svcs q) as [|x t]; [done|].
          by destruct t. }
      rewrite Hlast by done. by rewrite IH. }
  intros p Hne. split; [by apply Hrot|]. split; [|split].
  - clear Hne. revert p. induction k as [|k IH]; intros p; [done|].
    rewrite services_step. simpl. by rewrite IH.
  - assert (length (svcs p) ≠ 0)%nat as Hlen by (by destruct (svcs p)).
    intros i Hi.
    assert (∀ j q, svcs q ≠ [] → (j < k)%nat →
              (services k q).1 !! j = Some ((GetService (services j q).2).1)) as Hnth.
    { clear -k. induction k as [|k IH]; intros j q Hq Hj; [lia|].
      rewrite services_step. cbn [fst].
      destruct j as [|j]; [done|]. simpl.
      rewrite IH; [|rewrite GetService_svcs; destruct (svcs q) as [|x [|y t]]; done|lia].
      clear. revert q. induction j as [|j IHj]; intros q; [done|].
      rewrite !services_step. cbn [snd]. apply IHj. }
    rewrite (Hnth i p Hne Hi).
    pose proof (Hrot i p Hne) as Hi'.
    pose proof (Nat.mod_upper_bound i (length (svcs p)) Hlen) as Hm.
    destruct (lookup_lt_is_Some_2 (svcs p) _ Hm) as [x Hx].
    exists x. split; [done|].
    unfold GetService. rewrite Hi'. unfold rotate.
    rewrite (drop_S _ x _ Hx). done.
  - intros ->. rewrite Hrot by done. unfold rotate.
    rewrite Nat.Div0.mod_same. simpl. by rewrite app_nil_r.
Qed.

Lemma services_round_robin_witness :
  let p := set_svcs (NewServiceAccountPool 3)
             [mkInfo (Some 1%nat) (Some 11%nat); mkInfo (Some 2%nat) (Some 12%nat)] in
  svcs p ≠ [] ∧ svcs (services 2 p).2 = svcs p.
Proof.
  intros p. assert (svcs p ≠ []) as Hne by done.
  split; [exact Hne|].
  destruct (services_round_robin 2 p Hne) as (_ & _ & _ & Hback).
  by apply Hback.
Defined.

Lemma preload_take create count order : ∀ acc,
  preload create count order acc =
    acc ++ take (Z.to_nat count - length acc) (omap create order).
Proof.
  induction order as [|file order IH]; intros acc; cbn [preload omap list_omap].
  - by rewrite take_nil, app_nil_r.
  - destruct (Z.leb_spec count (Z.of_nat (length acc))) as [Hfull|Hroom].
    + replace (Z.to_nat count - length acc)%nat with 0%nat by lia.
      by rewrite take_0, app_nil_r.
    + destruct (create file) as [svc|].
      * rewrite IH, length_app. simpl.
        replace (Z.to_nat count - length acc)%nat
          with (S (Z.to_nat count - (length acc + 1)))%nat by lia.
        simpl. by rewrite <- app_assoc.
      * by rewrite IH.
Qed.

(** X14: [PreloadServices] returns the pairs of the first [count] files of
    its walk that [createDriveService] succeeds on, in walk order, skipping
    the files it fails on; it puts them in front of the pairs the cache
    held, which stay in their order; with [count <= 0] it builds nothing.
    It changes no other field. *)
Theorem PreloadServices_first_successes p create count order :
  let res := PreloadServices p create count order in
  res.1 = take (Z.to_nat count) (omap create order) ∧
  svcs res.2 = res.1 ++ svcs p ∧
  Z.of_nat (length res.1) ≤ Z.max count 0 ∧
  (length res.1 ≤ length order)%nat ∧
  (count ≤ 0 → res.1 = [] ∧ res.2 = p) ∧
  (∀ x, x ∈ res.1 → ∃ file, file ∈ order ∧ create file = Some x) ∧
  sas res.2 = sas p ∧ saPool res.2 = saPool p ∧ activeIdx res.2 = activeIdx p ∧
  Files res.2 = Files p ∧ Max res.2 = Max p.
Proof.
  intros res. subst res. unfold PreloadServices. cbv zeta. cbn [fst snd].
  rewrite preload_take. cbn [app length]. rewrite Nat.sub_0_r.
  split; [done|]. split; [done|]. split; [rewrite length_take; lia|].
  split.
  { rewrite length_take. etrans; [apply Nat.le_min_r|].
    clear. induction order as [|f order IH]; [done|].
    cbn [omap list_omap]. destruct (create f); simpl; lia. }
  split.
  { intros Hc. replace (Z.to_nat count) with 0%nat by lia.
    rewrite take_0. split; [done|]. by destruct p. }
  split; [|done].
  intros x Hx. apply (subseteq_take _ _ x) in Hx.
  apply list_elem_of_omap in Hx as (file & Hf & Hc). by exists file.
Qed.

End cache_more.

(** * Further properties of the selection *)

Section selection_more.
Import FilePool Runs.

(** One call on a valid draw: it returns, the pool afterwards holds the
    files left after the exclusion, and a file it returns is one of them;
    the registry afterwards is the one after the store, less the entry of
    the file returned. *)
Lemma getFile_step p (bl : Blacklist) x now keys perm clock :
  valid_draw (remaining p x) keys perm →
  ∃ file err p' bl',
    _getFile p bl x now keys perm clock = Done ((file, err), (p', bl')) ∧
    p' = (if bool_decide (x ≠ "") then set_Files p (Files p ∖ {[x]}) else p) ∧
    Files p' = remaining p x ∧
    (err = None → file ∈ remaining p x) ∧
    (err = None →
       ∃ m, visits keys perm !! m = Some file ∧
            ∀ t, (if bool_decide (x ≠ "") then <[x:=now]> bl else bl) !! file = Some t →
                 blacklistDuration < clock m - t) ∧
    (bl' = (if bool_decide (x ≠ "") then <[x:=now]> bl else bl)
     ∨ (err = None ∧
        bl' = delete file (if bool_decide (x ≠ "") then <[x:=now]> bl else bl))).
Proof.
  intros Hv.
  pose proof (getFile_run p bl x now keys perm clock Hv) as Hrun.
  cbv zeta in Hrun.
  set (bl1 := if bool_decide (x ≠ "") then <[x:=now]> bl else bl) in *.
  set (p1 := if bool_decide (x ≠ "") then set_Files p (Files p ∖ {[x]}) else p) in *.
  assert (Files p1 = remaining p x) as Hfiles.
  { unfold p1, remaining. by destruct (bool_decide (x ≠ "")). }
  case_bool_decide as Hsz.
  - exists "", (Some ErrNoFile), p1, bl1. split; [done|].
    split; [done|]. split; [done|]. split; [done|]. split; [done|]. by left.
  - destruct (pick_in_order_result clock (visits keys perm) 0 bl1)
      as [(pre & f & post & Hvs & _ & Hres)|[_ Hres]].
    + assert (visits keys perm !! length pre = Some f) as Hf
        by (rewrite Hvs; by apply list_lookup_middle).
      pose proof (visits_remaining _ _ _ _ _ Hv Hf) as Hin.
      destruct Hres as [[Hnone Hres]|(t & Ht & Hlate & Hres)];
        rewrite Hres in Hrun; simpl in Hrun.
      * exists f, None, p1, bl1. split; [done|]. split; [done|].
        split; [done|]. split; [done|]. split; [|by left].
        intros _. exists (length pre). split; [done|]. intros t. congruence.
      * exists f, None, p1, (delete f bl1). split; [done|]. split; [done|].
        split; [done|]. split; [done|]. split; [|by right].
        intros _. exists (length pre). split; [done|].
        intros t'. rewrite Ht. by intros [= <-].
    + rewrite Hres in Hrun. simpl in Hrun.
      exists "", (Some ErrAllBlacklisted), p1, bl1. split; [done|].
      split; [done|]. split; [done|]. split; [done|]. split; [done|]. by left.
Qed.

(** X15: [GetFile] with an empty [excludeFile] leaves the pool as it was
    and adds nothing to the blacklist: on an error the registry is
    unchanged, and on success the only entry that can go is that of the
    file returned, which is one of the files of the pool. *)
Theorem GetFile_without_exclusion p (bl : Blacklist) now keys perm clock :
  valid_draw (Files p) keys perm →
  ∃ file err bl',
    GetFile p bl "" now keys perm clock = Done ((file, err), (p, bl')) ∧
    (err = None → file ∈ Files p) ∧
    (err ≠ None → file = "" ∧ bl' = bl) ∧
    (∀ k, bl' !! k = bl !! k ∨ (err = None ∧ k = file ∧ bl' !! k = None)) ∧
    (∀ k t, bl' !! k = Some t → bl !! k = Some t).
Proof.
  intros Hv.
  assert (remaining p "" = Files p) as Hrem by done.
  rewrite <- Hrem in Hv.
  destruct (getFile_step p bl "" now keys perm clock Hv)
    as (file & err & p' & bl' & Hrun & Hp' & _ & Hin & _ & Hbl).
  rewrite (bool_decide_false ("" ≠ "")) in Hp', Hbl by (by intros []).
  subst p'. exists file, err, bl'. split; [exact Hrun|].
  split; [by rewrite <- Hrem|].
  assert (∀ k, bl' !! k = bl !! k ∨ (err = None ∧ k = file ∧ bl' !! k = None)) as Hk.
  { intros k. destruct Hbl as [->|[-> ->]]; [by left|].
    destruct (decide (k = file)) as [->|Hne].
    - right. split; [done|]. split; [done|]. apply lookup_delete_eq.
    - left. by apply lookup_delete_ne. }
  split; [|split; [done|]].
  - intros Herr. destruct Hbl as [->|[-> _]]; [|done].
    split; [|done].
    unfold GetFile in Hrun.
    rewrite (getFile_run p bl "" now keys perm clock Hv) in Hrun.
    rewrite (bool_decide_false ("" ≠ "")) in Hrun by (by intros []).
    case_bool_decide; [by injection Hrun as <- _|].
    injection Hrun as Hres _.
    destruct (pick_in_order_result clock (visits keys perm) 0 bl)
      as [(pre & f & post & _ & _ & [[_ Hr]|(t & _ & _ & Hr)])|[_ Hr]];
      rewrite Hr in Hres; simpl in Hres; injection Hres as <- <-; done.
  - intros k t Ht. destruct (Hk k) as [<-|(_ & _ & Hnone)]; [done|congruence].
Qed.

Lemma GetFile_without_exclusion_witness :
  valid_draw (Files Scenario.two_files) ["/sa/sa1.json"; "/sa/sa2.json"] [1%nat; 0%nat] ∧
  ∃ file err bl',
    GetFile Scenario.two_files Scenario.registry "" (100 * Clock.Hour)
      ["/sa/sa1.json"; "/sa/sa2.json"] [1%nat; 0%nat] Scenario.at_100h
    = Done ((file, err), (Scenario.two_files, bl')).
Proof.
  assert (valid_draw (Files Scenario.two_files)
            ["/sa/sa1.json"; "/sa/sa2.json"] [1%nat; 0%nat]) as Hv.
  { split; [vm_compute; reflexivity|]. cbn [length seq]. apply perm_swap. }
  split; [exact Hv|].
  destruct (GetFile_without_exclusion Scenario.two_files Scenario.registry
              (100 * Clock.Hour) _ _ Scenario.at_100h Hv)
    as (file & err & bl' & Hrun & _).
  exists file, err, bl'. exact Hrun.
Defined.

Lemma visits_NoDup files keys perm :
  valid_draw files keys perm → NoDup (visits keys perm).
Proof.
  intros Hv. rewrite (visits_Permutation _ _ _ Hv). apply NoDup_elements.
Qed.

(** X16: the limit of 25 hours is exclusive.  A file whose blacklist entry
    is at most 25 hours old, exactly 25 hours included, at the reading of
    the clock of the round that examines it is not returned by that call,
    and its entry stays in the registry. *)
Theorem GetFile_keeps_back_at_25h p (bl : Blacklist) x now keys perm clock m f t :
  valid_draw (remaining p x) keys perm →
  visits keys perm !! m = Some f → bl !! f = Some t →
  clock m - t ≤ blacklistDuration →
  ∃ file err p' bl',
    GetFile p bl x now keys perm clock = Done ((file, err), (p', bl')) ∧
    (err = None → file ≠ f) ∧ bl' !! f = Some t.
Proof.
  intros Hv Hm Ht Hage.
  destruct (getFile_step p bl x now keys perm clock Hv)
    as (file & err & p' & bl' & Hrun & _ & _ & _ & Hround & Hbl).
  pose proof (visits_remaining _ _ _ _ _ Hv Hm) as Hin.
  pose proof (stored_lookup p bl x now f Hin) as Hsame.
  set (bl1 := if bool_decide (x ≠ "") then <[x:=now]> bl else bl) in *.
  assert (err = None → file ≠ f) as Hother.
  { intros Herr ->. destruct (Hround Herr) as (m' & Hm' & Hlate).
    assert (m' = m) as -> by (eapply NoDup_lookup; [by eapply visits_NoDup|done..]).
    specialize (Hlate t). rewrite Hsame in Hlate. specialize (Hlate Ht). lia. }
  exists file, err, p', bl'. split; [exact Hrun|]. split; [exact Hother|].
  destruct Hbl as [->|[Herr ->]]; [by rewrite Hsame|].
  rewrite lookup_delete_ne by (intros ->; by apply Hother). by rewrite Hsame.
Qed.

Lemma GetFile_keeps_back_at_25h_witness :
  let bl : Blacklist := <["/sa/sa1.json" := 75 * Clock.Hour]> ∅ in
  Scenario.at_100h 0%nat - 75 * Clock.Hour ≤ blacklistDuration ∧
  ∃ file err p' bl',
    GetFile Scenario.two_files bl "" (100 * Clock.Hour)
      ["/sa/sa1.json"; "/sa/sa2.json"] [0%nat; 1%nat] Scenario.at_100h
      = Done ((file, err), (p', bl')) ∧
    (err = None → file ≠ "/sa/sa1.json").
Proof.
  intros bl.
  assert (valid_draw (remaining Scenario.two_files "")
            ["/sa/sa1.json"; "/sa/sa2.json"] [0%nat; 1%nat]) as Hv.
  { split; vm_compute; reflexivity. }
  assert (Scenario.at_100h 0%nat - 75 * Clock.Hour ≤ blacklistDuration) as Hage.
  { unfold Scenario.at_100h, blacklistDuration, Clock.Hour. lia. }
  split; [exact Hage|].
  assert (visits ["/sa/sa1.json"; "/sa/sa2.json"] [0%nat; 1%nat] !! 0%nat
          = Some "/sa/sa1.json") as Hm by reflexivity.
  assert (bl !! "/sa/sa1.json" = Some (75 * Clock.Hour)) as Ht
    by apply lookup_insert_eq.
  destruct (GetFile_keeps_back_at_25h Scenario.two_files bl "" (100 * Clock.Hour)
              _ _ Scenario.at_100h 0%nat "/sa/sa1.json" (75 * Clock.Hour) Hv
              Hm Ht Hage)
    as (file & err & p' & bl' & Hrun & Hother & _).
  exists file, err, p', bl'. split; [exact Hrun|exact Hother].
Defined.

Lemma remaining_subseteq p x : remaining p x ⊆ Files p.
Proof.
  unfold remaining. case_bool_decide; [|done].
  intros f Hf. by apply elem_of_difference in Hf as [Hf _].
Qed.

Lemma remaining_excludes p x : x ≠ "" → x ∉ remaining p x.
Proof.
  intros Hx. unfold remaining. rewrite bool_decide_true by done.
  intros Hin. apply elem_of_difference in Hin as [_ Hin].
  apply Hin. by apply elem_of_singleton.
Qed.

Lemma call_step st c :
  valid_draw (remaining st.1 (excludeFile c)) (keys c) (perm c) →
  ∃ res st',
    call st c = Done (res, st') ∧
    Files st'.1 = remaining st.1 (excludeFile c) ∧
    (res.2 = None → res.1 ∈ remaining st.1 (excludeFile c)).
Proof.
  intros Hv. unfold call, GetFile.
  destruct (getFile_step st.1 st.2 (excludeFile c) (now c) (keys c) (perm c)
              (clock c) Hv)
    as (file & err & p' & bl' & Hrun & _ & Hfiles & Hin & _).
  exists (file, err), (p', bl'). split; [exact Hrun|]. split; [exact Hfiles|exact Hin].
Qed.

(** X17: files only leave the pool.  Over any run of [GetFile] calls on
    valid draws no call panics, the files of the pool never grow, every
    file returned belongs to the pool the run started with, and a file
    passed as [excludeFile] is returned neither by that call nor by any
    later one, whatever the clock reads: it is not in the pool at the end. *)
Theorem excluded_files_stay_out cs : ∀ st,
  calls_valid st cs →
  ∃ ress st',
    calls st cs = Done (ress, st') ∧
    length ress = length cs ∧
    Files st'.1 ⊆ Files st.1 ∧
    (∀ j f, ress !! j = Some (f, None) → f ∈ Files st.1) ∧
    (∀ i j c f, (i ≤ j)%nat → cs !! i = Some c → excludeFile c ≠ "" →
       ress !! j = Some (f, None) → f ≠ excludeFile c) ∧
    (∀ i c, cs !! i = Some c → excludeFile c ≠ "" →
       excludeFile c ∉ Files st'.1).
Proof.
  induction cs as [|c cs IH]; intros st Hvalid.
  - exists [], st. split; [done|]. split; [done|]. split; [done|].
    split; [intros j f; by rewrite lookup_nil|].
    split; [intros i j c f _; by rewrite lookup_nil|].
    intros i c. by rewrite lookup_nil.
  - cbn [calls_valid] in Hvalid. destruct Hvalid as [Hv Hrest].
    destruct (call_step st c Hv) as (res & st1 & Hcall & Hfiles & Hin).
    rewrite Hcall in Hrest.
    destruct (IH st1 Hrest) as (ress & st' & Hrun & Hlen & Hsub & Hmem & Hout & Hend).
    exists (res :: ress), st'. cbn [calls]. rewrite Hcall, Hrun.
    assert (∀ j f, (res :: ress) !! j = Some (f, None) →
              f ∈ remaining st.1 (excludeFile c)) as Hall.
    { intros [|j] f Hj; simpl in Hj.
      - injection Hj as ->. by apply Hin.
      - rewrite <- Hfiles. by eapply Hmem. }
    split; [done|]. split; [simpl; by rewrite Hlen|].
    split.
    { intros f Hf. apply Hsub in Hf. rewrite Hfiles in Hf.
      by apply remaining_subseteq in Hf. }
    split.
    { intros j f Hj. eapply remaining_subseteq. by eapply Hall. }
    split.
    { intros [|i] j c' f Hij Hi Hx Hj.
      - simpl in Hi. injection Hi as <-. intros ->.
        apply Hall in Hj. by apply (remaining_excludes st.1 (excludeFile c)).
      - destruct j as [|j]; [lia|]. simpl in Hi, Hj.
        eapply (Hout i j); [lia|done..]. }
    intros [|i] c' Hi Hx; simpl in Hi.
    + injection Hi as <-. intros Hf. apply Hsub in Hf. rewrite Hfiles in Hf.
      by apply (remaining_excludes st.1 (excludeFile c)).
    + by eapply Hend.
Qed.

Lemma excluded_files_stay_out_witness :
  let c1 := mkCall "/sa/sa1.json" (100 * Clock.Hour) ["/sa/sa2.json"] [0%nat]
              Scenario.at_100h in
  let c2 := mkCall "" (200 * Clock.Hour) ["/sa/sa2.json"] [0%nat]
              (λ _, 200 * Clock.Hour) in
  calls_valid (Scenario.two_files, ∅) [c1; c2] ∧
  ∃ ress st', calls (Scenario.two_files, ∅) [c1; c2] = Done (ress, st') ∧
              "/sa/sa1.json" ∉ Files st'.1.
Proof.
  intros c1 c2.
  assert (calls_valid (Scenario.two_files, ∅) [c1; c2]) as Hvalid.
  { vm_compute. repeat split; reflexivity. }
  split; [exact Hvalid|].
  destruct (excluded_files_stay_out [c1; c2] _ Hvalid)
    as (ress & st' & Hrun & _ & _ & _ & _ & Hend).
  exists ress, st'. split; [exact Hrun|].
  apply (Hend 0%nat c1); [reflexivity|]. intros Heq. discriminate Heq.
Defined.

End selection_more.

(** * Loading *)

Section strings_facts.

Lemma list_of_append (a b : string) :
  String.list_ascii_of_string (a +:+ b) =
  String.list_ascii_of_string a ++ String.list_ascii_of_string b.
Proof.
  induction a as [|c a IH]; [reflexivity|].
  change (String c a +:+ b) with (String c (a +:+ b)).
  cbn [String.list_ascii_of_string]. by rewrite IH.
Qed.

Lemma string_of_app (l k : list ascii) :
  String.string_of_list_ascii (l ++ k) =
  String.string_of_list_ascii l +:+ String.string_of_list_ascii k.
Proof.
  induction l as [|c l IH]; [reflexivity|].
  cbn [app String.string_of_list_ascii]. rewrite IH. reflexivity.
Qed.

Lemma append_inj_r (a x y : string) : a +:+ x = a +:+ y → x = y.
Proof.
  induction a as [|c a IH]; [done|].
  change (String c a +:+ x) with (String c (a +:+ x)).
  change (String c a +:+ y) with (String c (a +:+ y)).
  intros [= H]. by apply IH.
Qed.

End strings_facts.

Section ext_facts.
Import Loader.

(** The loop of [path.Ext] returns nothing or a suffix that starts at a
    dot. *)
Lemma Ext_loop_suffix path : ∀ n,
  Ext_loop path n = [] ∨
  ∃ i, (i < n)%nat ∧ path !! i = Some "."%char ∧ Ext_loop path n = drop i path.
Proof.
  induction n as [|n IH]; [by left|].
  cbn [Ext_loop]. destruct (path !! n) as [c|] eqn:Hc; [|by left].
  case_bool_decide as Hslash; [by left|].
  case_bool_decide as Hdot.
  - right. exists n. subst c. split; [lia|]. done.
  - destruct IH as [IH|(i & Hi & Hp & IH)]; [by left|].
    right. exists i. split; [lia|]. done.
Qed.

(** It finds the last dot when no slash and no dot follow it. *)
Lemma Ext_loop_last_dot pre suf : ∀ k,
  Forall (λ c, c ≠ "/"%char ∧ c ≠ "."%char) suf →
  (k ≤ length suf)%nat →
  Ext_loop (pre ++ "."%char :: suf) (length pre + 1 + k) = "."%char :: suf.
Proof.
  intros k Hsuf. induction k as [|k IH]; intros Hk.
  - replace (length pre + 1 + 0)%nat with (S (length pre)) by lia.
    cbn [Ext_loop]. rewrite list_lookup_middle by done.
    rewrite bool_decide_false by done. rewrite bool_decide_true by done.
    by rewrite drop_app_length.
  - replace (length pre + 1 + S k)%nat with (S (length pre + 1 + k)) by lia.
    cbn [Ext_loop].
    destruct (lookup_lt_is_Some_2 suf k) as [c Hc]; [lia|].
    assert ((pre ++ "."%char :: suf) !! (length pre + 1 + k)%nat = Some c) as ->.
    { rewrite lookup_app_r by lia.
      replace (length pre + 1 + k - length pre)%nat with (S k) by lia. done. }
    pose proof (proj1 (Forall_lookup _ _) Hsuf k c Hc) as [Hs Hd].
    rewrite !bool_decide_false by done. apply IH. lia.
Qed.

(** [path.Ext(f) == ".json"] says that [f] ends in [.json]. *)
Lemma Ext_json_iff f : Ext f = ".json" ↔ ends_json f.
Proof.
  unfold Ext, ends_json. split.
  - intros He.
    apply (f_equal String.list_ascii_of_string) in He.
    rewrite String.list_ascii_of_string_of_list_ascii in He.
    set (l := String.list_ascii_of_string f) in *.
    destruct (Ext_loop_suffix l (length l)) as [Hn|(i & _ & _ & Hi)].
    { rewrite Hn in He. discriminate. }
    rewrite Hi in He.
    exists (String.string_of_list_ascii (take i l)).
    rewrite <- (String.string_of_list_ascii_of_string ".json").
    rewrite <- string_of_app. rewrite <- He, take_drop.
    unfold l. by rewrite String.string_of_list_ascii_of_string.
  - intros [stem ->]. rewrite list_of_append.
    change (String.list_ascii_of_string ".json")
      with ("."%char :: String.list_ascii_of_string "json").
    rewrite length_app. cbn [length].
    replace (length (String.list_ascii_of_string stem) +
             S (length (String.list_ascii_of_string "json")))%nat
      with (length (String.list_ascii_of_string stem) + 1 +
            length (String.list_ascii_of_string "json"))%nat by lia.
    rewrite Ext_loop_last_dot; [reflexivity| |done].
    cbn. repeat constructor; done.
Qed.

End ext_facts.

Section load_facts.
Import Loader Rotation Index.

Lemma updateSas_other_fields p data a :
  Files (updateSas p data a) = Files p ∧
  Max (updateSas p data a) = Max p ∧
  svcs (updateSas p data a) = svcs p.
Proof.
  unfold updateSas. repeat case_match; done.
Qed.

(** The loop over the entries of the folder. *)
Lemma scan_dir_spec folder active entries : ∀ acc,
  (scan_dir folder active entries acc).2 = acc.2 ++ json_paths folder entries ∧
  ∀ f, f ∈ (scan_dir folder active entries acc).1 ↔
       f ∈ acc.1 ∨ (f ∈ json_paths folder entries ∧ f ≠ active).
Proof.
  unfold json_paths.
  induction entries as [|name entries IH]; intros acc.
  - simpl. rewrite app_nil_r. split; [done|].
    intros f. rewrite elem_of_nil. tauto.
  - cbn [scan_dir fmap list_fmap]. rewrite filter_cons.
    case_bool_decide as Hext.
    + rewrite decide_False by done. apply IH.
    + rewrite decide_True by done.
      destruct (IH (if bool_decide (folder +:+ name ≠ active)
                    then {[folder +:+ name]} ∪ acc.1 else acc.1,
                    acc.2 ++ [folder +:+ name])) as [IH2 IH1].
      cbn [fst snd] in IH1, IH2. split.
      * rewrite IH2. by rewrite <- app_assoc.
      * intros f. rewrite IH1, elem_of_cons.
        case_bool_decide as Hact.
        -- rewrite elem_of_union, elem_of_singleton.
           split; [intros [[->|?]|?]|intros [?|[[->|?] ?]]]; tauto.
        -- split; [intros [?|?]|intros [?|[[->|?] ?]]]; tauto.
Qed.

Lemma json_paths_spec folder entries f :
  f ∈ json_paths folder entries ↔
  ∃ name, name ∈ entries ∧ f = folder +:+ name ∧ ends_json f.
Proof.
  unfold json_paths. rewrite list_elem_of_filter, list_elem_of_fmap.
  rewrite Ext_json_iff. split.
  - intros [He (name & -> & Hin)]. by exists name.
  - intros (name & Hin & -> & He). split; [done|]. by exists name.
Qed.

Lemma json_paths_NoDup folder entries :
  NoDup entries → NoDup (json_paths folder entries).
Proof.
  intros Hnd. unfold json_paths. apply NoDup_filter.
  apply NoDup_fmap_2; [|done]. intros x y. apply append_inj_r.
Qed.

(** [Load] when the folder is configured and read. *)
Lemma Load_read p opt sep entries :
  ServiceAccountFilePath opt ≠ "" →
  Load p opt sep (Some entries) =
    (inl (scan_dir (folder_of opt sep) (ServiceAccountFile opt) entries (∅, [])).1,
     updateSas
       (set_Files p (scan_dir (folder_of opt sep) (ServiceAccountFile opt) entries (∅, [])).1)
       (json_paths (folder_of opt sep) entries) (ServiceAccountFile opt)).
Proof.
  intros Hf. unfold Load, folder_of. cbv zeta.
  rewrite bool_decide_false by done.
  by rewrite (proj1 (scan_dir_spec _ _ entries (∅, []))).
Qed.

(** X18: when the folder is configured and can be read, [Load] returns,
    and stores in [Files], exactly the paths [folder + name] of the entries
    that end in [.json], the active file left out; the capacity and the
    cache are untouched.  So the active file is never among the files to
    pick from. *)
Theorem Load_files_are_json_paths p opt sep entries :
  ServiceAccountFilePath opt ≠ "" →
  ∃ files p',
    Load p opt sep (Some entries) = (inl files, p') ∧
    Files p' = files ∧ Max p' = Max p ∧ svcs p' = svcs p ∧
    (∀ f, f ∈ files ↔
       (∃ name, name ∈ entries ∧ f = folder_of opt sep +:+ name ∧ ends_json f) ∧
       f ≠ ServiceAccountFile opt) ∧
    ServiceAccountFile opt ∉ files.
Proof.
  intros Hf. rewrite (Load_read p opt sep entries Hf).
  set (scanned := scan_dir (folder_of opt sep) (ServiceAccountFile opt) entries (∅, [])).
  pose proof (proj2 (scan_dir_spec (folder_of opt sep) (ServiceAccountFile opt)
                       entries (∅, []))) as Hmem.
  fold scanned in Hmem. cbn [fst] in Hmem.
  eexists _, _. split; [done|].
  destruct (updateSas_other_fields (set_Files p scanned.1)
              (json_paths (folder_of opt sep) entries) (ServiceAccountFile opt))
    as (HF & HM & HS).
  split; [by rewrite HF|]. split; [by rewrite HM|]. split; [by rewrite HS|].
  assert (∀ f, f ∈ scanned.1 ↔
            (∃ name, name ∈ entries ∧ f = folder_of opt sep +:+ name ∧ ends_json f) ∧
            f ≠ ServiceAccountFile opt) as Hchar.
  { intros f. rewrite Hmem, json_paths_spec. rewrite elem_of_empty. tauto. }
  split; [done|]. intros Hin. apply Hchar in Hin. by destruct Hin as [_ []].
Qed.

Lemma Load_files_are_json_paths_witness :
  let opt := mkOptions "/sa" "/sa/sa1.json" in
  ServiceAccountFilePath opt ≠ "" ∧
  ∃ files p',
    Load (NewServiceAccountPool 100) opt "/" (Some ["notes.txt"; "sa1.json"; "sa2.json"])
      = (inl files, p') ∧
    "/sa/sa1.json" ∉ files.
Proof.
  intros opt. assert (ServiceAccountFilePath opt ≠ "") as Hf by done.
  split; [exact Hf|].
  destruct (Load_files_are_json_paths (NewServiceAccountPool 100) opt "/"
              ["notes.txt"; "sa1.json"; "sa2.json"] Hf)
    as (files & p' & Hrun & _ & _ & _ & _ & Hout).
  exists files, p'. split; [exact Hrun|exact Hout].
Defined.

(** A rebuild that goes through, from a list without repetition. *)
Lemma updateSas_built p data a :
  data ≠ [] → a ≠ "" → NoDup data →
  wf (updateSas p data a) ∧ none_stale (updateSas p data a) ∧
  sas (updateSas p data a) !! activeIdx (updateSas p data a)
    = Some (mkSaEntry a false) ∧
  ∀ f, is_Some (saPool (updateSas p data a) !! f) ↔ f ∈ data ∨ f = a.
Proof.
  intros Hd Ha Hnd.
  assert (∀ f, is_Some ((fill 0 data (∅, ∅)).2 !! f) ↔ f ∈ data) as Hkeys.
  { intros f. split.
    - intros Hs. destruct (decide (f ∈ data)) as [|Hnin]; [done|].
      rewrite fill_pool_out, lookup_empty in Hs by done. by destruct Hs.
    - intros Hin. destruct (fill_pool_in data 0 ∅ ∅ f Hin) as (k & -> & _).
      by eexists. }
  destruct (decide (a ∈ data)) as [Hin|Hnin].
  - destruct (updateSas_present p data a Hd Ha Hin) as (k & Hk & _ & ->).
    split; [by apply wf_fill|]. split; [|split].
    + intros i e He. simpl in He.
      by destruct (fill_sas_entry _ _ _ He) as (? & ? & ? & ?).
    + simpl. by apply fill_sas_nth.
    + intros f. simpl. rewrite Hkeys. split; [tauto|]. by intros [?| ->].
  - rewrite (updateSas_absent p data a Hd Ha Hnin).
    split; [|split; [|split]].
    + pose proof (wf_fill data 0 (Files p) (Max p) (svcs p) Hnd) as Hf.
      pose proof (wf_append _ a (Z.of_nat (length data)) (Files p) (Max p) (svcs p) Hf)
        as Hap.
      rewrite len_sas_mk, fill_sas_size in Hap. simpl in Hap.
      apply Hap. intros i e He <-.
      destruct (fill_sas_entry _ _ _ He) as (k & _ & Hk & _).
      apply Hnin. by eapply list_elem_of_lookup_2.
    + intros i e. simpl. intros He.
      destruct (decide (i = Z.of_nat (length data))) as [->|Hne].
      * rewrite lookup_insert_eq in He. by injection He as <-.
      * rewrite lookup_insert_ne in He by done.
        by destruct (fill_sas_entry _ _ _ He) as (? & ? & ? & ?).
    + simpl. apply lookup_insert_eq.
    + intros f. simpl. destruct (decide (f = a)) as [->|Hne].
      * rewrite lookup_insert_eq. split; [by right|by eexists].
      * rewrite lookup_insert_ne by done. rewrite Hkeys. tauto.
Qed.

(** X19: [Load] fills the two structures from one scan.  When the folder
    is read, its entries are distinct, an active file is configured and at
    least one path ends in [.json], the rotation index afterwards satisfies
    its invariant with no entry stale, the active entry is the configured
    file, and the identifiers of the index are the files to pick from plus
    the active file: every file [GetFile] can return is accepted by
    [activeSa]. *)
Theorem Load_builds_index p opt sep entries :
  ServiceAccountFilePath opt ≠ "" → ServiceAccountFile opt ≠ "" →
  NoDup entries → json_paths (folder_of opt sep) entries ≠ [] →
  let p' := (Load p opt sep (Some entries)).2 in
  wf p' ∧ none_stale p' ∧
  sas p' !! activeIdx p' = Some (mkSaEntry (ServiceAccountFile opt) false) ∧
  (∀ f, is_Some (saPool p' !! f) ↔ f ∈ Files p' ∨ f = ServiceAccountFile opt) ∧
  (∀ f, f ∈ Files p' →
     sas (activeSa p' f) !! activeIdx (activeSa p' f) = Some (mkSaEntry f false)).
Proof.
  intros Hf Ha Hnd Hjson p'. subst p'.
  rewrite (Load_read p opt sep entries Hf). cbn [snd].
  set (scanned := scan_dir (folder_of opt sep) (ServiceAccountFile opt) entries (∅, [])).
  set (data := json_paths (folder_of opt sep) entries) in *.
  set (p1 := set_Files p scanned.1).
  destruct (updateSas_built p1 data (ServiceAccountFile opt) Hjson Ha
              (json_paths_NoDup _ _ Hnd)) as (Hwf & Hfresh & Hact & Hkeys).
  destruct (updateSas_other_fields p1 data (ServiceAccountFile opt)) as (HF & _ & _).
  pose proof (proj2 (scan_dir_spec (folder_of opt sep) (ServiceAccountFile opt)
                       entries (∅, []))) as Hmem.
  fold scanned data in Hmem. cbn [fst] in Hmem.
  assert (∀ f, is_Some (saPool (updateSas p1 data (ServiceAccountFile opt)) !! f) ↔
            f ∈ Files (updateSas p1 data (ServiceAccountFile opt))
            ∨ f = ServiceAccountFile opt) as Hdom.
  { intros f. rewrite Hkeys, HF. unfold p1. simpl. rewrite Hmem, elem_of_empty.
    destruct (decide (f = ServiceAccountFile opt)); tauto. }
  split; [done|]. split; [done|]. split; [done|]. split; [done|].
  intros f Hin.
  destruct (proj2 (Hdom f) (or_introl Hin)) as [i Hi].
  unfold activeSa. rewrite Hi. simpl. by apply (wf_reverse _ Hwf).
Qed.

Lemma Load_builds_index_witness :
  let opt := mkOptions "/sa" "/sa/sa1.json" in
  let p' := (Load (NewServiceAccountPool 100) opt "/"
               (Some ["notes.txt"; "sa1.json"; "sa2.json"])).2 in
  NoDup ["notes.txt"; "sa1.json"; "sa2.json"] ∧ wf p' ∧
  sas p' !! activeIdx p' = Some (mkSaEntry "/sa/sa1.json" false).
Proof.
  intros opt p'.
  assert (NoDup ["notes.txt"; "sa1.json"; "sa2.json"]) as Hnd.
  { apply (bool_decide_unpack _). vm_compute. exact I. }
  assert (json_paths (folder_of opt "/") ["notes.txt"; "sa1.json"; "sa2.json"] ≠ [])
    as Hjson.
  { vm_compute. discriminate. }
  assert (ServiceAccountFilePath opt ≠ "") as Hf by done.
  assert (ServiceAccountFile opt ≠ "") as Ha by done.
  destruct (Load_builds_index (NewServiceAccountPool 100) opt "/" _ Hf Ha Hnd Hjson)
    as (Hwf & _ & Hact & _).
  split; [exact Hnd|]. split; [exact Hwf|exact Hact].
Defined.

(** X20: [Load] touches the rotation index only through a rebuild that
    goes through.  With no folder configured, or a folder that cannot be
    read, the pool is as before (and the error is reported); with a folder
    that holds no [.json] entry, or with no active file configured, the
    files to pick from are replaced (by none, in the first case) while the
    entries, the reverse mapping and [activeIdx] keep their old values. *)
Theorem Load_leaves_index_alone p opt sep :
  (ServiceAccountFilePath opt = "" →
     ∀ readDir, Load p opt sep readDir = (inl (Files p), p)) ∧
  (ServiceAccountFilePath opt ≠ "" →
     Load p opt sep None = (inr ErrReadDir, p)) ∧
  (∀ entries,
     ServiceAccountFilePath opt ≠ "" →
     json_paths (folder_of opt sep) entries = [] ∨ ServiceAccountFile opt = "" →
     let p' := (Load p opt sep (Some entries)).2 in
     sas p' = sas p ∧ saPool p' = saPool p ∧ activeIdx p' = activeIdx p ∧
     (json_paths (folder_of opt sep) entries = [] → Files p' = ∅) ∧
     (ServiceAccountFile opt = "" →
        ∀ f, f ∈ Files p' ↔ f ∈ json_paths (folder_of opt sep) entries)).
Proof.
  split; [|split].
  - intros Hf readDir. unfold Load. cbv zeta. by rewrite bool_decide_true.
  - intros Hf. unfold Load. cbv zeta. by rewrite bool_decide_false.
  - intros entries Hf Hskip p'. subst p'.
    rewrite (Load_read p opt sep entries Hf). cbn [snd].
    set (scanned := scan_dir (folder_of opt sep) (ServiceAccountFile opt) entries (∅, [])).
    pose proof (proj2 (scan_dir_spec (folder_of opt sep) (ServiceAccountFile opt)
                         entries (∅, []))) as Hmem.
    fold scanned in Hmem. cbn [fst] in Hmem.
    rewrite updateSas_noop by (destruct Hskip; [by left|by right]). simpl.
    split; [done|]. split; [done|]. split; [done|]. split.
    + intros Hnone. apply leibniz_equiv. intros f.
      rewrite Hmem, Hnone, elem_of_nil, elem_of_empty. tauto.
    + intros Ha f. rewrite Hmem, elem_of_empty. split; [tauto|].
      intros Hin. right. split; [done|]. rewrite Ha. intros ->.
      apply json_paths_spec in Hin as (name & _ & _ & stem & Hstem).
      destruct stem; discriminate.
Qed.

Lemma Load_leaves_index_alone_witness :
  let opt := mkOptions "/sa" "/sa/b" in
  let p' := (Load Scenario.built opt "/" (Some ["notes.txt"])).2 in
  sas p' = sas Scenario.built ∧ Files p' = ∅.
Proof.
  intros opt p'.
  destruct (Load_leaves_index_alone Scenario.built opt "/") as (_ & _ & Hskip).
  assert (json_paths (folder_of opt "/") ["notes.txt"] = []) as Hnone
    by (vm_compute; reflexivity).
  destruct (Hskip ["notes.txt"]) as (Hsas & _ & _ & Hfiles & _); [done|by left|].
  split; [exact Hsas|by apply Hfiles].
Defined.

End load_facts.

(** * The two rotation strategies side by side *)

Section two_strategies.
Import Rotation Index FilePool.

(** X21: exhaustion is sticky.  Once the reverse mapping is empty, every
    [staleSa], whatever its target and whatever is drawn, reports
    exhaustion again, returns the empty string and leaves [activeIdx] at -1
    and the reverse mapping empty; nothing but [revertStaleSa] or a
    rebuild brings an identifier back. *)
Theorem staleSa_exhausted_stays p target it r :
  saPool p = ∅ →
  (staleSa p target it r).1 = (true, "") ∧
  activeIdx (staleSa p target it r).2 = -1 ∧
  saPool (staleSa p target it r).2 = ∅ ∧
  len_sas (staleSa p target it r).2 = len_sas p.
Proof.
  intros He.
  destruct (staleSa_maps p target it r) as [Hsas Hpool].
  assert (saPool (staleSa p target it r).2 = ∅) as Hpool'
    by (rewrite Hpool, He; apply delete_empty).
  assert (len_sas (staleSa p target it r).2 = len_sas p) as Hlen.
  { unfold len_sas. rewrite Hsas.
    destruct (sas p !! saPool_at p (resolve p target)) as [e|] eqn:Hl; [|done].
    by rewrite map_size_insert_Some by by eexists. }
  split; [|split; [|done]].
  - unfold staleSa. fold (resolve p target). cbv zeta.
    unfold isPoolEmpty.
    destruct (sas p !! saPool_at p (resolve p target)); simpl;
      rewrite He, delete_empty, map_size_empty; done.
  - unfold staleSa. fold (resolve p target). cbv zeta.
    unfold isPoolEmpty.
    destruct (sas p !! saPool_at p (resolve p target)); simpl;
      rewrite He, delete_empty, map_size_empty; done.
Qed.

Lemma staleSa_exhausted_stays_witness :
  let p := (staleSa (updateSas (NewServiceAccountPool 100) ["only"] "only") "" [] 0).2 in
  saPool p = ∅ ∧ (staleSa p "" [] 0).1 = (true, "").
Proof.
  intros p. assert (saPool p = ∅) as He by (vm_compute; reflexivity).
  split; [exact He|].
  exact (proj1 (staleSa_exhausted_stays p "" [] 0 He)).
Defined.

Lemma scan_ext p q fuel : ∀ i,
  sas p = sas q → scan p fuel i = scan q fuel i.
Proof.
  induction fuel as [|fuel IH]; intros i Hs; [done|].
  cbn [scan]. unfold sas_at. rewrite Hs. by rewrite (IH (i + 1) Hs).
Qed.

Lemma rollup_ext p q :
  sas p = sas q → activeIdx p = activeIdx q → (rollup p).1 = (rollup q).1.
Proof.
  intros Hs Ha. unfold rollup, scan_range, len_sas. cbv zeta.
  rewrite Ha, Hs. rewrite !(scan_ext p q _ _ Hs).
  by repeat case_match.
Qed.

(** X22: the two strategies do not see each other.  [GetFile] changes
    nothing but the files to pick from and the blacklist: the entries, the
    reverse mapping, [activeIdx] and the cache are as before, so [rollup]
    answers as before and [activeSa] still accepts a file that was just
    excluded and blacklisted.  In the other direction [staleSa],
    [revertStaleSa] and [activeSa] leave the files to pick from and the
    cache as they are, so a staled identifier stays available to
    [GetFile]. *)
Theorem strategies_are_independent p (bl : Blacklist) x now keys perm clock :
  valid_draw (remaining p x) keys perm →
  (∃ res p' bl',
     GetFile p bl x now keys perm clock = Done (res, (p', bl')) ∧
     sas p' = sas p ∧ saPool p' = saPool p ∧ activeIdx p' = activeIdx p ∧
     svcs p' = svcs p ∧ Max p' = Max p ∧
     (rollup p').1 = (rollup p).1 ∧
     activeIdx (activeSa p' x) = activeIdx (activeSa p x)) ∧
  (∀ target it r,
     Files (staleSa p target it r).2 = Files p ∧
     svcs (staleSa p target it r).2 = svcs p) ∧
  (∀ target it,
     Files (revertStaleSa p target it) = Files p ∧
     svcs (revertStaleSa p target it) = svcs p) ∧
  (∀ s, Files (activeSa p s) = Files p ∧ svcs (activeSa p s) = svcs p).
Proof.
  intros Hv. split; [|split; [|split]].
  - destruct (getFile_step p bl x now keys perm clock Hv)
      as (file & err & p' & bl' & Hrun & Hp' & _).
    exists (file, err), p', bl'. split; [exact Hrun|].
    assert (sas p' = sas p ∧ saPool p' = saPool p ∧ activeIdx p' = activeIdx p ∧
            svcs p' = svcs p ∧ Max p' = Max p) as (Hs & Hr & Ha & Hc & Hm).
    { rewrite Hp'. by destruct (bool_decide (x ≠ "")). }
    split; [done|]. split; [done|]. split; [done|]. split; [done|]. split; [done|].
    split; [by apply rollup_ext|].
    unfold activeSa. rewrite Hr. by destruct (saPool p !! x).
  - intros target it r. unfold staleSa. cbv zeta.
    destruct (sas p !! _); repeat case_match; done.
  - intros target it. unfold revertStaleSa.
    repeat case_match; done.
  - intros s. unfold activeSa. by destruct (saPool p !! s).
Qed.

Lemma strategies_are_independent_witness :
  valid_draw (remaining Scenario.two_files "/sa/sa1.json") ["/sa/sa2.json"] [0%nat] ∧
  ∃ res p' bl',
    GetFile Scenario.two_files Scenario.registry "/sa/sa1.json" (100 * Clock.Hour)
      ["/sa/sa2.json"] [0%nat] Scenario.at_100h = Done (res, (p', bl')) ∧
    sas p' = sas Scenario.two_files.
Proof.
  assert (valid_draw (remaining Scenario.two_files "/sa/sa1.json")
            ["/sa/sa2.json"] [0%nat]) as Hv.
  { split; vm_compute; reflexivity. }
  split; [exact Hv|].
  destruct (proj1 (strategies_are_independent Scenario.two_files Scenario.registry
                     "/sa/sa1.json" (100 * Clock.Hour) _ _ Scenario.at_100h Hv))
    as (res & p' & bl' & Hrun & Hs & _).
  exists res, p', bl'. split; [exact Hrun|exact Hs].
Defined.

End two_strategies.

(** * [staleSa] on the states the code reaches *)

Section stale_targets.
Import Rotation Index Scenario.

Lemma after_zzz_reachable : reachable 100 after_zzz.
Proof.
  refine (reach_step 100 _ stale_zzz (reachable_known_reachable _ _ built_known) _).
  split; [vm_compute; reflexivity|intros _; cbn [length]; lia].
Qed.

Lemma after_c_reachable : reachable 100 after_c.
Proof.
  refine (reach_step 100 _ stale_c after_zzz_reachable _).
  split; [vm_compute; reflexivity|intros _; cbn [length]; lia].
Qed.

Lemma after_last_reachable : reachable 100 after_last.
Proof.
  refine (reach_step 100 _ stale_last after_c_reachable _).
  split; [vm_compute; reflexivity|intros _; cbn [length]; lia].
Qed.

(** C6: [staleSa] does not keep to the result the claim describes on the
    states the code reaches.
    - On the index built from [a, b, c], after [staleSa("b")], which
      satisfies the invariant, a second [staleSa("b")], whose target is an
      entry of the index, returns [(false, "a")] and leaves "a" stale and
      active.
    - After [staleSa("zzz")] has marked entry 0 stale, [staleSa("c")],
      whose target is a key of the reverse mapping and not stale, returns
      [(false, "a")]: the identifier of a stale entry, which becomes the
      active one.
    - A further [staleSa("b")], again on a key of the reverse mapping,
      leaves every entry stale and still returns [(false, "a")] instead of
      reporting exhaustion; [activeIdx] is 0, not -1. *)
Theorem staleSa_hands_out_stale_entry :
  (reachable_known 100 stale_once ∧ wf stale_once ∧
   sas stale_once !! 1 = Some (mkSaEntry "b" true) ∧
   (staleSa stale_once "b" [("c", 2); ("a", 0)] 1).1 = (false, "a") ∧
   sas stale_twice !! activeIdx stale_twice = Some (mkSaEntry "a" true)) ∧
  (reachable 100 after_zzz ∧
   saPool after_zzz !! resolve after_zzz "c" = Some 2 ∧
   sas after_zzz !! 2 = Some (mkSaEntry "c" false) ∧
   (staleSa after_zzz "c" [("a", 0); ("b", 1)] 0).1 = (false, "a") ∧
   sas after_c !! activeIdx after_c = Some (mkSaEntry "a" true)) ∧
  (reachable 100 after_c ∧
   saPool after_c !! resolve after_c "b" = Some 1 ∧
   sas after_c !! 1 = Some (mkSaEntry "b" false) ∧
   (staleSa after_c "b" [("a", 0)] 0).1 = (false, "a") ∧
   all_stale after_last ∧ activeIdx after_last = 0 ∧
   reachable 100 after_last).
Proof.
  split; [|split].
  - split; [exact stale_once_known|].
    split; [exact (reachable_known_wf _ _ stale_once_known)|].
    split; [vm_compute; reflexivity|].
    split; vm_compute; reflexivity.
  - split; [exact after_zzz_reachable|].
    split; [vm_compute; reflexivity|].
    split; [vm_compute; reflexivity|].
    split; vm_compute; reflexivity.
  - split; [exact after_c_reachable|].
    split; [vm_compute; reflexivity|].
    split; [vm_compute; reflexivity|].
    split; [vm_compute; reflexivity|].
    split; [|split; [vm_compute; reflexivity|exact after_last_reachable]].
    intros i e He.
    assert (0 ≤ i < len_sas after_last) as Hi.
    { apply (shape_dense _ (reachable_shape _ _ after_last_reachable)). by eexists. }
    assert (len_sas after_last = 3) as Hl by (vm_compute; reflexivity).
    assert (i = 0 ∨ i = 1 ∨ i = 2) as [->|[->| ->]] by lia;
      vm_compute in He; injection He as <-; reflexivity.
Qed.

End stale_targets.
